(** * Bellman-Ford single-source shortest paths (bellmanford.py)

    A shallow embedding of [BellmanFord.singleSourceShortestPath] and of its
    helper [BellmanFord.adjacency], in two layers:

    - a value-level model, in which the weight matrix and the two working
      arrays are lists and a raised exception is a [Raise] outcome;
    - a store-level model ([Module Store]), in which every Python list is an
      object in a heap, the working arrays are allocated and written in
      place, and the function receives a reference to the matrix.

    The store-level model is shown to compute what the value-level model
    computes, and to leave every object that existed before the call as it
    was.

    Edge weights and distances are Python 2 integers ([int] or [long]), which
    never overflow: they are modelled by [Z]. *)

From stdpp Require Import base list sorting gmap.
From Stdlib Require Import ZArith Lia.

(** ** Outcomes and exceptions *)

(** The exceptions the code can raise: [IndexError] and [TypeError] come from
    the Python runtime (subscript out of range, [int + None]);
    [NegativeCycle] is [Exception("Negative cycle found")]. *)
Inductive exn : Type :=
  | IndexError
  | TypeError
  | NegativeCycle.

Inductive outcome (A : Type) : Type :=
  | Ok (a : A)
  | Raise (e : exn).
Arguments Ok {A} a.
Arguments Raise {A} e.

#[global] Instance exn_eq_dec : EqDecision exn.
Proof. solve_decision. Defined.

#[global] Instance outcome_ret : MRet outcome := @Ok.
#[global] Instance outcome_bind : MBind outcome :=
  λ A B f m, match m with Ok a => f a | Raise e => Raise e end.

(** A Python [for x in xs: body] whose body may raise; [s] is the state the
    body updates. *)
Fixpoint for_each {X S : Type} (xs : list X) (body : X → S → outcome S)
    (s : S) : outcome S :=
  match xs with
  | [] => Ok s
  | x :: xs' => s' ← body x s; for_each xs' body s'
  end.

(** ** Python built-ins used by the code *)

(** [sys.maxint] of a 64-bit CPython 2: [2^63 - 1]. Python 2 integers do not
    wrap: [maxint + 1] is a [long], so sums are sums in [Z]. *)
Definition maxint : Z := 9223372036854775807.

(** [range(lo, hi)]. *)
Definition py_range (lo hi : Z) : list Z :=
  (λ k : nat, (lo + Z.of_nat k)%Z) <$> seq 0 (Z.to_nat (hi - lo)).

(** The position a Python subscript [i] denotes in a list of length [n]:
    negative subscripts count from the end. *)
Definition py_index (n : nat) (i : Z) : outcome nat :=
  if decide (0 ≤ i < Z.of_nat n)%Z then Ok (Z.to_nat i)
  else if decide (- Z.of_nat n ≤ i < 0)%Z then Ok (Z.to_nat (i + Z.of_nat n))
  else Raise IndexError.

(** [l[i]] for a subscript that is a loop index of a [range], hence not
    negative. *)
Definition getitem {A : Type} (l : list A) (i : nat) : outcome A :=
  match l !! i with
  | Some a => Ok a
  | None => Raise IndexError
  end.

(** [l[i] = a], same subscripts. *)
Definition setitem {A : Type} (l : list A) (i : nat) (a : A) : outcome (list A) :=
  if decide (i < length l) then Ok (<[i:=a]> l) else Raise IndexError.

(** [d + c] for an integer [d] and a matrix cell [c]: adding [None] to an
    integer is a [TypeError]. *)
Definition py_add (d : Z) (c : option Z) : outcome Z :=
  match c with
  | Some w => Ok (d + w)%Z
  | None => Raise TypeError
  end.

(** ** The value-level model *)

(** A weight matrix: a list of rows, each cell an edge weight or [None]. *)
Abbreviation matrix := (list (list (option Z))).

(** [EVE = -1] and [INFINITY = maxint]. *)
Definition EVE : Z := (-1)%Z.
Definition INFINITY : Z := maxint.

(** Lines 100-101: the body of the loop of [adjacency]. *)
Definition adjacency_step (G : matrix) (v x : nat) (result : list nat)
    : outcome (list nat) :=
  row ← getitem G v;
  c ← getitem row x;
  match c with
  | Some _ => Ok (result ++ [x])
  | None => Ok result
  end.

(** [adjacency(G, v)]: lines 97-103. *)
Definition adjacency (G : matrix) (v : nat) : outcome (list nat) :=
  for_each (seq 0 (length G)) (adjacency_step G v) [].

(** The expression [minDist[v] + weight[v][x]] of lines 81, 82 and 88. *)
Definition candidate (weight : matrix) (minDist : list Z) (v x : nat)
    : outcome Z :=
  dv ← getitem minDist v;
  row ← getitem weight v;
  c ← getitem row x;
  py_add dv c.

(** The test [minDist[x] > minDist[v] + weight[v][x]] of lines 81 and 88. *)
Definition improvable (weight : matrix) (minDist : list Z) (v x : nat)
    : outcome bool :=
  dx ← getitem minDist x;
  s ← candidate weight minDist v x;
  Ok (bool_decide (dx > s)%Z).

(** The two working arrays, [pred] first. *)
Abbreviation arrays := (list Z * list Z)%type.

(** Lines 81-83: the relaxation of one edge [(v, x)]. *)
Definition relax (weight : matrix) (v x : nat) (st : arrays) : outcome arrays :=
  let '(pred, minDist) := st in
  b ← improvable weight minDist v x;
  if b : bool then
    s ← candidate weight minDist v x;
    minDist' ← setitem minDist x s;
    pred' ← setitem pred x (Z.of_nat v);
    Ok (pred', minDist')
  else Ok (pred, minDist).

(** Lines 79-83: one pass over the edge set. *)
Definition relax_pass (weight : matrix) (st : arrays) : outcome arrays :=
  for_each (seq 0 (length weight))
    (λ v st,
       adj ← adjacency weight v;
       for_each adj (λ x st, relax weight v x st) st)
    st.

(** Lines 87-89: the test of one edge in the detection pass. *)
Definition detect (weight : matrix) (v x : nat) (st : arrays) : outcome arrays :=
  b ← improvable weight st.2 v x;
  if b : bool then Raise NegativeCycle else Ok st.

(** Lines 86-89: the detection pass. *)
Definition detect_pass (weight : matrix) (st : arrays) : outcome arrays :=
  for_each (seq 0 (length weight))
    (λ v st,
       adj ← adjacency weight v;
       for_each adj (λ x st, detect weight v x st) st)
    st.

(** The values the outer loop variable [i] of line 78 takes. *)
Definition passes (SIZE : nat) : list Z := py_range 1 (Z.of_nat SIZE - 1).

(** Lines 66-75: the working arrays before the first pass. *)
Definition initialise (weight : matrix) (source : Z) : outcome arrays :=
  let SIZE := length weight in
  let pred := replicate SIZE EVE in
  let minDist := replicate SIZE INFINITY in
  k ← py_index (length minDist) source;
  minDist ← setitem minDist k 0%Z;
  Ok (pred, minDist).

(** [singleSourceShortestPath(weight, source)]: lines 64-91. The returned
    two-element list [[pred, minDist]] is the pair. *)
Definition singleSourceShortestPath (weight : matrix) (source : Z)
    : outcome arrays :=
  let SIZE := length weight in
  st ← initialise weight source;
  st ← for_each (passes SIZE) (λ _ st, relax_pass weight st) st;
  st ← detect_pass weight st;
  Ok st.

(** The matrix of [testBellmanFordWithPositiveEdges], lines 107-113. *)
Definition weight_positive : matrix :=
  [ [None; Some 10; None; None; Some 3];
    [None; None; Some 2; None; Some 1];
    [None; None; None; Some 7; None];
    [None; None; Some 9; None; None];
    [None; Some 4; Some 8; Some 2; None] ]%Z.

(** ** The store-level model *)

Module Store.

(** Values: [None], an integer, or a reference to a list object. Every
    object the code handles is a list, so the heap maps a reference to the
    current elements of its list. *)
Inductive val : Type :=
  | VNone
  | VInt (n : Z)
  | VRef (l : positive).

Abbreviation heap := (gmap positive (list val)).

(** A Python expression or statement: it reads and writes the heap, and
    returns a value or raises. *)
Definition M (A : Type) : Type := heap → outcome A * heap.

#[global] Instance M_ret : MRet M := λ A a h, (Ok a, h).
#[global] Instance M_bind : MBind M :=
  λ A B f m h,
    match m h with
    | (Ok a, h') => f a h'
    | (Raise e, h') => (Raise e, h')
    end.

Definition raise {A : Type} (e : exn) : M A := λ h, (Raise e, h).

Definition lift {A : Type} (r : outcome A) : M A := λ h, (r, h).

(** [for y in ys: body]. *)
Fixpoint for_each {Y : Type} (ys : list Y) (body : Y → M ()) : M () :=
  match ys with
  | [] => mret ()
  | y :: ys' => _ ← body y; for_each ys' body
  end.

(** A list display or [[a] * n]: a new object. *)
Definition new_list (xs : list val) : M val :=
  λ h, let l := fresh (dom h) in (Ok (VRef l), <[l:=xs]> h).

(** The elements of a list object. Only lists have elements; a reference
    always denotes an object of the heap (the model raises [TypeError] on
    one that does not). *)
Definition elements_of (o : val) : M (list val) :=
  λ h, match o with
       | VRef l => match h !! l with
                   | Some xs => (Ok xs, h)
                   | None => (Raise TypeError, h)
                   end
       | _ => (Raise TypeError, h)
       end.

(** [len(o)]. *)
Definition len (o : val) : M nat :=
  xs ← elements_of o; mret (length xs).

(** [range(n)], as Python integers. *)
Definition range (n : nat) : list val :=
  (λ k : nat, VInt (Z.of_nat k)) <$> seq 0 n.

(** A subscript must be an integer. *)
Definition index_of (n : nat) (i : val) : M nat :=
  match i with
  | VInt i => lift (py_index n i)
  | _ => raise TypeError
  end.

(** [o[i]]. *)
Definition getitem (o i : val) : M val :=
  xs ← elements_of o;
  k ← index_of (length xs) i;
  match xs !! k with
  | Some a => mret a
  | None => raise IndexError
  end.

(** [o[i] = a]. *)
Definition setitem (o i a : val) : M () :=
  xs ← elements_of o;
  k ← index_of (length xs) i;
  match o with
  | VRef l => λ h, (Ok (), <[l:=<[k:=a]> xs]> h)
  | _ => raise TypeError
  end.

(** [o.append(a)]. *)
Definition append (o a : val) : M () :=
  xs ← elements_of o;
  match o with
  | VRef l => λ h, (Ok (), <[l:=xs ++ [a]]> h)
  | _ => raise TypeError
  end.

(** [a + b]: the code adds an integer distance and a matrix cell. *)
Definition add (a b : val) : M val :=
  match a, b with
  | VInt a, VInt b => mret (VInt (a + b))
  | _, _ => raise TypeError
  end.

(** [a > b]: wherever the code compares, both operands are integers (the
    model raises [TypeError] on other operands). *)
Definition gt (a b : val) : M bool :=
  match a, b with
  | VInt a, VInt b => mret (bool_decide (a > b)%Z)
  | _, _ => raise TypeError
  end.

(** [c is not None]. *)
Definition is_not_None (c : val) : bool :=
  match c with
  | VNone => false
  | _ => true
  end.

(** [adjacency(G, v)]: lines 97-103. *)
Definition adjacency (G v : val) : M val :=
  result ← new_list [];
  n ← len G;
  _ ← for_each (range n)
        (λ x,
           row ← getitem G v;
           c ← getitem row x;
           if is_not_None c then append result x else mret ());
  mret result.

(** [minDist[v] + weight[v][x]]: lines 81, 82 and 88. *)
Definition candidate (weight minDist v x : val) : M val :=
  dv ← getitem minDist v;
  row ← getitem weight v;
  c ← getitem row x;
  add dv c.

(** [minDist[x] > minDist[v] + weight[v][x]]: lines 81 and 88. *)
Definition improvable (weight minDist v x : val) : M bool :=
  dx ← getitem minDist x;
  s ← candidate weight minDist v x;
  gt dx s.

(** Lines 81-83. *)
Definition relax (weight pred minDist v x : val) : M () :=
  b ← improvable weight minDist v x;
  if b : bool then
    s ← candidate weight minDist v x;
    _ ← setitem minDist x s;
    setitem pred x v
  else mret ().

(** Lines 88-89. *)
Definition detect (weight minDist v x : val) : M () :=
  b ← improvable weight minDist v x;
  if b : bool then raise NegativeCycle else mret ().

(** [for v in range(SIZE): for x in self.adjacency(weight, v): body]. The
    list that [adjacency] returns is a new object that [body] does not
    write to, so the loop visits the elements it has when the loop starts. *)
Definition for_each_edge (weight : val) (SIZE : nat) (body : val → val → M ())
    : M () :=
  for_each (range SIZE)
    (λ v,
       adj ← adjacency weight v;
       xs ← elements_of adj;
       for_each xs (λ x, body v x)).

(** [singleSourceShortestPath(weight, source)]: lines 64-91. [[EVE] * SIZE]
    is one new list. *)
Definition singleSourceShortestPath (weight source : val) : M val :=
  SIZE ← len weight;
  pred ← new_list (replicate SIZE (VInt EVE));
  minDist ← new_list (replicate SIZE (VInt INFINITY));
  _ ← setitem minDist source (VInt 0);
  _ ← for_each (passes SIZE)
        (λ _, for_each_edge weight SIZE (relax weight pred minDist));
  _ ← for_each_edge weight SIZE (detect weight minDist);
  new_list [pred; minDist].

(** A matrix cell and an integer array as values. *)
Definition cell (c : option Z) : val :=
  match c with
  | Some w => VInt w
  | None => VNone
  end.

Definition ints (xs : list Z) : list val := VInt <$> xs.

Definition indices (xs : list nat) : list val :=
  (λ k : nat, VInt (Z.of_nat k)) <$> xs.

(** The heap [h] holds the matrix [G] at [weight]: a list of references to
    rows, each row a list of cells. Rows may share an object. *)
Definition holds_matrix (h : heap) (weight : val) (G : matrix) : Prop :=
  ∃ l rows, weight = VRef l ∧ h !! l = Some (VRef <$> rows) ∧
    Forall2 (λ r row, h !! r = Some (cell <$> row)) rows G.

(** The value [r] is the two-element list [[pred, minDist]] in [h]. *)
Definition holds_result (h : heap) (r : val) (st : arrays) : Prop :=
  ∃ lr lp ld, r = VRef lr ∧ h !! lr = Some [VRef lp; VRef ld] ∧
    h !! lp = Some (ints st.1) ∧ h !! ld = Some (ints st.2).

(** The heap [h] extends [h0] and holds the working arrays [st] at [lp] and
    [ld]. *)
Definition arrays_at (h0 : heap) (lp ld : positive) (st : arrays) (h : heap)
    : Prop :=
  h0 ⊆ h ∧ h !! lp = Some (ints st.1) ∧ h !! ld = Some (ints st.2).

(** The value [r] is a list [[pred, minDist]] made of three different
    objects of [h'] that were not in [h], holding the arrays [st]. *)
Definition holds_new_result (h h' : heap) (r : val) (st : arrays) : Prop :=
  ∃ lr lp ld, r = VRef lr ∧ NoDup [lr; lp; ld] ∧
    h !! lr = None ∧ h !! lp = None ∧ h !! ld = None ∧
    h' !! lr = Some [VRef lp; VRef ld] ∧
    h' !! lp = Some (ints st.1) ∧ h' !! ld = Some (ints st.2).

(** The store-level run [m] from [h] does what the value-level outcome [p]
    says: it returns a value related to the returned value by [R], or it
    raises the same exception, in a heap satisfying [F]. *)
Definition refines {A B : Type} (R : A → B → heap → Prop) (F : heap → Prop)
    (p : outcome A) (m : M B) (h : heap) : Prop :=
  match p, m h with
  | Ok a, (Ok b, h') => R a b h'
  | Raise e, (Raise e', h') => e = e' ∧ F h'
  | _, _ => False
  end.

(** A heap with the matrix of the demonstration run at reference 1. *)
Definition heap_positive : heap :=
  list_to_map
    [ (1%positive, [VRef 2; VRef 3; VRef 4; VRef 5; VRef 6]);
      (2%positive, cell <$> [None; Some 10; None; None; Some 3]%Z);
      (3%positive, cell <$> [None; None; Some 2; None; Some 1]%Z);
      (4%positive, cell <$> [None; None; None; Some 7; None]%Z);
      (5%positive, cell <$> [None; None; Some 9; None; None]%Z);
      (6%positive, cell <$> [None; Some 4; Some 8; Some 2; None]%Z) ].

End Store.

(** ** Graph notions used by the statements *)

(** [weight[v][x]] is present, with weight [w], and [x] is a vertex. *)
Definition edge (G : matrix) (v x : nat) (w : Z) : Prop :=
  x < length G ∧ ∃ row, G !! v = Some row ∧ row !! x = Some (Some w).

(** Decidable form of "[(v, x)] is an edge". *)
Definition has_edge (G : matrix) (v x : nat) : bool :=
  match G !! v with
  | Some row => match row !! x with Some (Some _) => true | _ => false end
  | None => false
  end.

(** A walk from [u] to [x] of total weight [W], grown at its end. *)
Inductive walk (G : matrix) : nat → nat → Z → Prop :=
  | walk_nil u : u < length G → walk G u u 0
  | walk_snoc u v x W w :
      walk G u v W → edge G v x w → walk G u x (W + w).

(** Some cycle has strictly negative total weight. *)
Definition negative_cycle (G : matrix) : Prop :=
  ∃ v W, walk G v v W ∧ (W < 0)%Z.

(** Some cycle of strictly negative total weight can be reached from [s]. *)
Definition negative_cycle_reachable (G : matrix) (s : nat) : Prop :=
  ∃ v W0 W, walk G s v W0 ∧ walk G v v W ∧ (W < 0)%Z.

Definition square (G : matrix) : Prop :=
  Forall (λ row, length row = length G) G.

Definition valid_source (G : matrix) (source : Z) : Prop :=
  (0 ≤ source < Z.of_nat (length G))%Z.

(** No edge can lower a distance: the condition the detection pass tests. *)
Definition stable (G : matrix) (minDist : list Z) : Prop :=
  ∀ v x w dv dx,
    edge G v x w → minDist !! v = Some dv → minDist !! x = Some dx →
    ¬ (dv + w < dx)%Z.

(** Postconditions on results: [Q] on a returned value, [E] on a raised
    exception. *)
Definition post {A : Type} (Q : A → Prop) (E : exn → Prop) (r : outcome A) : Prop :=
  match r with
  | Ok a => Q a
  | Raise e => E e
  end.

(** Both working arrays have one entry per vertex. *)
Definition lengths_ok (G : matrix) (st : arrays) : Prop :=
  length st.1 = length G ∧ length st.2 = length G.

(** [I] survives every update the relaxation of an edge can make. *)
Definition relax_closed (G : matrix) (I : arrays → Prop) : Prop :=
  ∀ v x w pred minDist dv dx,
    edge G v x w → lengths_ok G (pred, minDist) → I (pred, minDist) →
    minDist !! v = Some dv → minDist !! x = Some dx → (dv + w < dx)%Z →
    I (<[x:=Z.of_nat v]> pred, <[x:=(dv + w)%Z]> minDist).

(** The distance a vertex starts with when the source is at position [k]. *)
Definition initial_distance (k u : nat) : Z :=
  if decide (u = k) then 0%Z else INFINITY.

(** No distance exceeds [INFINITY]. *)
Definition below_infinity (st : arrays) : Prop :=
  ∀ x d, st.2 !! x = Some d → (d ≤ INFINITY)%Z.

(** A recorded predecessor [p] of [x] names an edge [(p, x)] through which
    [x] cannot be further from the source than it is. *)
Definition pred_edges (G : matrix) (st : arrays) : Prop :=
  ∀ x p, st.1 !! x = Some p → p ≠ EVE →
    ∃ w dp dx, (0 ≤ p)%Z ∧ edge G (Z.to_nat p) x w ∧
      st.2 !! Z.to_nat p = Some dp ∧ st.2 !! x = Some dx ∧ (dp + w ≤ dx)%Z.

(** Every distance is the initial distance of some vertex plus the weight of
    a walk from that vertex. *)
Definition from_walks (G : matrix) (k : nat) (st : arrays) : Prop :=
  ∀ x d, st.2 !! x = Some d →
    ∃ u W, walk G u x W ∧ d = (initial_distance k u + W)%Z.

(** A vertex has a predecessor exactly when its distance was lowered. *)
Definition pred_iff_lowered (k : nat) (st : arrays) : Prop :=
  ∀ x p d, st.1 !! x = Some p → st.2 !! x = Some d →
    (p = EVE ∧ d = initial_distance k x) ∨
    (p ≠ EVE ∧ (d < initial_distance k x)%Z).

(** The arrays a run can hold while it relaxes: the initial arrays, and the
    arrays after relaxing any edge from arrays it can hold. *)
Inductive reached (weight : matrix) (source : Z) : arrays → Prop :=
  | reached_initial st :
      initialise weight source = Ok st → reached weight source st
  | reached_relax st v x w st' :
      reached weight source st → edge weight v x w →
      relax weight v x st = Ok st' → reached weight source st'.

(** No walk into vertex [k] from another vertex weighs less than
    [-INFINITY]. *)
Definition shallow_walks (G : matrix) (k : nat) : Prop :=
  ∀ u W, u ≠ k → walk G u k W → (0 ≤ INFINITY + W)%Z.

(** Every weight in the matrix is non-negative. *)
Definition nonnegative (G : matrix) : Prop :=
  ∀ v x w, edge G v x w → (0 ≤ w)%Z.

(** Sample inputs. *)

(** Two vertices, one edge 0→1 of weight 5. *)
Definition weight_one_edge : matrix :=
  [ [None; Some 5]; [None; None] ]%Z.

(** Three vertices; 1 and 2, not reachable from 0, form a cycle of weight -2. *)
Definition weight_far_cycle : matrix :=
  [ [None; None; None]; [None; None; Some (-1)]; [None; Some (-1); None] ]%Z.

(** Three vertices; the only edge, 1→2 of weight -1, leaves a vertex that is
    not reachable from 0. *)
Definition weight_far_edge : matrix :=
  [ [None; None; None]; [None; None; Some (-1)]; [None; None; None] ]%Z.

(** Three vertices; edges 1→2 and 2→0, each of weight [-maxint]. *)
Definition weight_deep : matrix :=
  [ [None; None; None]; [None; None; Some (- maxint)]; [Some (- maxint); None; None] ]%Z.

(** The matrix of the commented-out [testBellmanFordWithNegativeCycle],
    lines 138-144. *)
Definition weight_negative_cycle : matrix :=
  [ [None; Some (-1); Some 4; None; None];
    [None; None; Some 3; Some 2; Some 2];
    [None; Some (-6); None; None; None];
    [None; Some 1; Some 5; None; None];
    [None; None; None; Some (-3); None] ]%Z.

(** Every weight in the matrix is strictly positive. *)
Definition positive_weights (G : matrix) : Prop :=
  ∀ v x w, edge G v x w → (0 < w)%Z.

(** Following the predecessor entries from [x] leads to [y]. *)
Inductive pred_chain (pred : list Z) : nat → nat → Prop :=
  | pred_chain_here x : pred_chain pred x x
  | pred_chain_step x p y :
      pred !! x = Some p → p ≠ EVE → pred_chain pred (Z.to_nat p) y →
      pred_chain pred x y.

(** Two vertices and no edge. *)
Definition weight_no_edges : matrix :=
  [ [None; None]; [None; None] ].

(** The matrix without the cells beyond column [len(G) - 1]. *)
Definition truncate (G : matrix) : matrix := take (length G) <$> G.

(** Three rows; the last has one cell too few. *)
Definition weight_short_row : matrix :=
  [ [None; Some 1; None]; [None; None; Some 1]; [None; None] ]%Z.

(** * Properties of the value-level model *)

Lemma post_bind {A B : Type} (Q : B → Prop) (E : exn → Prop)
    (m : outcome A) (f : A → outcome B) :
  post (λ a, post Q E (f a)) E m → post Q E (m ≫= f).
Proof. destruct m; simpl; auto. Qed.

Lemma post_mono {A : Type} (Q Q' : A → Prop) (E E' : exn → Prop) (r : outcome A) :
  post Q E r → (∀ a, Q a → Q' a) → (∀ e, E e → E' e) → post Q' E' r.
Proof. destruct r; simpl; auto. Qed.

(** A loop keeps an invariant that each iteration keeps. *)
Lemma for_each_post {X S : Type} (I : S → Prop) (E : exn → Prop)
    (xs : list X) (body : X → S → outcome S) (s : S) :
  I s →
  (∀ x s1, x ∈ xs → I s1 → post I E (body x s1)) →
  post I E (for_each xs body s).
Proof.
  revert s. induction xs as [|x xs IH]; intros s Hs Hbody; simpl.
  - exact Hs.
  - apply post_bind.
    eapply post_mono; [apply (Hbody x s); [left | exact Hs] | | auto].
    intros s' Hs'. apply IH; [exact Hs' |].
    intros y s1 Hy. apply Hbody. by right.
Qed.

Lemma length_py_range (lo hi : Z) : length (py_range lo hi) = Z.to_nat (hi - lo).
Proof. unfold py_range. by rewrite length_fmap, length_seq. Qed.

(** The outer loop of line 78 runs [SIZE - 2] times (none when [SIZE < 2]). *)
Lemma length_passes (SIZE : nat) : length (passes SIZE) = SIZE - 2.
Proof. unfold passes. rewrite length_py_range. lia. Qed.

Lemma edge_lt (G : matrix) (v x : nat) (w : Z) :
  edge G v x w → v < length G ∧ x < length G.
Proof.
  intros (Hx & row & Hrow & _). split; [|done].
  by eapply lookup_lt_Some.
Qed.

Lemma has_edge_true (G : matrix) (v x : nat) :
  x < length G → has_edge G v x = true ↔ ∃ w, edge G v x w.
Proof.
  intros Hx. unfold has_edge, edge. split.
  - destruct (G !! v) as [row|] eqn:Hrow; [|done].
    destruct (row !! x) as [[w|]|] eqn:Hc; [|done..].
    intros _. exists w. eauto.
  - intros (w & _ & row & -> & ->). done.
Qed.

(** *** adjacency *)

Lemma adjacency_step_row (G : matrix) (v x : nat) (result : list nat)
    (row : list (option Z)) :
  G !! v = Some row →
  adjacency_step G v x result
  = match row !! x with
    | Some (Some _) => Ok (result ++ [x])
    | Some None => Ok result
    | None => Raise IndexError
    end.
Proof.
  intros Hrow. unfold adjacency_step, getitem. rewrite Hrow. simpl.
  by destruct (row !! x) as [[?|]|].
Qed.

Lemma adjacency_step_no_row (G : matrix) (v x : nat) (result : list nat) :
  G !! v = None → adjacency_step G v x result = Raise IndexError.
Proof. intros Hrow. unfold adjacency_step, getitem. by rewrite Hrow. Qed.

Lemma adjacency_loop_post (G : matrix) (v : nat) (xs acc : list nat) :
  v < length G →
  Forall (λ x, x < length G) xs →
  post (λ r, r = acc ++ filter (λ x, has_edge G v x = true) xs)
       (λ e, e = IndexError ∧ ¬ square G)
       (for_each xs (adjacency_step G v) acc).
Proof.
  intros Hv. revert acc. induction xs as [|x xs IH]; intros acc Hxs; simpl.
  - by rewrite app_nil_r.
  - apply Forall_cons in Hxs as [Hx Hxs].
    destruct (lookup_lt_is_Some_2 G v Hv) as [row Hrow].
    rewrite (adjacency_step_row G v x acc row Hrow).
    destruct (row !! x) as [c|] eqn:Hc; simpl.
    + assert (Hf : filter (λ x, has_edge G v x = true) (x :: xs)
                 = (if c is Some _ then [x] else [])
                   ++ filter (λ x, has_edge G v x = true) xs).
      { assert (He : has_edge G v x = if c is Some _ then true else false)
          by (unfold has_edge; by rewrite Hrow, Hc).
        rewrite filter_cons, He. by destruct c. }
      rewrite Hf.
      destruct c; simpl.
      * specialize (IH (acc ++ [x]) Hxs). by rewrite <- app_assoc in IH.
      * by apply IH.
    + split; [done |]. intros Hsq.
      apply lookup_ge_None in Hc.
      unfold square in Hsq. rewrite Forall_lookup in Hsq.
      specialize (Hsq v row Hrow). simpl in Hsq. lia.
Qed.

Lemma Forall_seq_lt (n : nat) : Forall (λ x, x < n) (seq 0 n).
Proof. apply Forall_forall. intros x Hx%elem_of_seq. lia. Qed.

(** [adjacency] returns the neighbours in index order, or fails with
    [IndexError] on a row that is too short. *)
Lemma adjacency_post (G : matrix) (v : nat) :
  v < length G →
  post (λ r, r = filter (λ x, has_edge G v x = true) (seq 0 (length G)))
       (λ e, e = IndexError ∧ ¬ square G)
       (adjacency G v).
Proof.
  intros Hv.
  exact (adjacency_loop_post G v (seq 0 (length G)) [] Hv (Forall_seq_lt _)).
Qed.

Lemma adjacency_square (G : matrix) (v : nat) :
  square G → v < length G →
  adjacency G v = Ok (filter (λ x, has_edge G v x = true) (seq 0 (length G))).
Proof.
  intros Hsq Hv. pose proof (adjacency_post G v Hv) as H.
  destruct (adjacency G v) as [adj|e]; simpl in H.
  - by rewrite H.
  - by destruct H.
Qed.

Lemma elem_of_neighbours (G : matrix) (v x : nat) :
  x ∈ filter (λ x, has_edge G v x = true) (seq 0 (length G)) ↔ ∃ w, edge G v x w.
Proof.
  rewrite list_elem_of_filter, elem_of_seq. split.
  - intros [He Hx]. apply has_edge_true; [lia | done].
  - intros [w Hw]. pose proof (edge_lt _ _ _ _ Hw) as [_ Hx].
    split; [|lia]. apply has_edge_true; eauto.
Qed.

(** A loop establishes an invariant that may mention the elements already
    visited. *)
Lemma for_each_prefix_post {X S : Type} (I : list X → S → Prop) (E : exn → Prop)
    (xs : list X) (body : X → S → outcome S) (s : S) :
  I [] s →
  (∀ pre x s1, x ∈ xs → I pre s1 → post (I (pre ++ [x])) E (body x s1)) →
  post (I xs) E (for_each xs body s).
Proof.
  intros Hs Hbody.
  enough (∀ pre s, I pre s → post (I (pre ++ xs)) E (for_each xs body s))
    as H by exact (H [] s Hs).
  clear s Hs. induction xs as [|x xs IH]; intros pre s Hs; simpl.
  - by rewrite app_nil_r.
  - apply post_bind.
    eapply post_mono; [apply (Hbody pre x s); [left | exact Hs] | | auto].
    intros s' Hs'. simpl.
    replace (pre ++ x :: xs) with ((pre ++ [x]) ++ xs) by by rewrite <- app_assoc.
    apply IH; [|done]. intros pre' y s1 Hy. apply Hbody. by right.
Qed.

(** *** One edge *)

Lemma candidate_edge (weight : matrix) (minDist : list Z) (v x : nat) (w dv : Z) :
  edge weight v x w → minDist !! v = Some dv →
  candidate weight minDist v x = Ok (dv + w)%Z.
Proof.
  intros (_ & row & Hrow & Hc) Hv.
  unfold candidate, getitem. rewrite Hv, Hrow. simpl. by rewrite Hc.
Qed.

Lemma improvable_edge (weight : matrix) (minDist : list Z) (v x : nat) (w dv dx : Z) :
  edge weight v x w → minDist !! v = Some dv → minDist !! x = Some dx →
  improvable weight minDist v x = Ok (bool_decide (dx > dv + w)%Z).
Proof.
  intros He Hv Hx. unfold improvable, getitem. rewrite Hx. simpl.
  by rewrite (candidate_edge _ _ _ _ _ _ He Hv).
Qed.

Lemma relax_edge (weight : matrix) (v x : nat) (w : Z) (pred minDist : list Z)
    (dv dx : Z) :
  edge weight v x w → minDist !! v = Some dv → minDist !! x = Some dx →
  x < length pred →
  relax weight v x (pred, minDist)
  = Ok (if bool_decide (dx > dv + w)%Z
        then (<[x:=Z.of_nat v]> pred, <[x:=(dv + w)%Z]> minDist)
        else (pred, minDist)).
Proof.
  intros He Hv Hx Hp. unfold relax.
  rewrite (improvable_edge _ _ _ _ _ _ _ He Hv Hx). simpl.
  case_bool_decide; [|done].
  rewrite (candidate_edge _ _ _ _ _ _ He Hv). simpl.
  unfold setitem. apply lookup_lt_Some in Hx.
  rewrite decide_True by done. simpl. by rewrite decide_True by done.
Qed.

Lemma detect_edge (weight : matrix) (v x : nat) (w : Z) (st : arrays) (dv dx : Z) :
  edge weight v x w → st.2 !! v = Some dv → st.2 !! x = Some dx →
  detect weight v x st
  = if bool_decide (dx > dv + w)%Z then Raise NegativeCycle else Ok st.
Proof.
  intros He Hv Hx. unfold detect.
  by rewrite (improvable_edge _ _ _ _ _ _ _ He Hv Hx).
Qed.

(** *** The phases of a run *)

Section run.
Context (weight : matrix).
Context (I : arrays → Prop) (E : exn → Prop).
Hypothesis E_short_row : ¬ square weight → E IndexError.
Hypothesis I_lengths : ∀ st, I st → lengths_ok weight st.
Hypothesis I_closed : relax_closed weight I.

Lemma relax_post (v x : nat) (w : Z) (st : arrays) :
  edge weight v x w → I st → post I E (relax weight v x st).
Proof.
  intros He Hst. destruct st as [pred minDist].
  destruct (I_lengths _ Hst) as [Hp Hd]. simpl in Hp, Hd.
  destruct (edge_lt _ _ _ _ He) as [Hv Hx].
  destruct (lookup_lt_is_Some_2 minDist v) as [dv Hdv]; [lia|].
  destruct (lookup_lt_is_Some_2 minDist x) as [dx Hdx]; [lia|].
  rewrite (relax_edge _ _ _ _ _ _ _ _ He Hdv Hdx) by lia. simpl.
  case_bool_decide; [|done].
  eapply I_closed; eauto. lia.
Qed.

Lemma relax_pass_post (st : arrays) :
  I st → post I E (relax_pass weight st).
Proof.
  intros Hst. unfold relax_pass.
  apply for_each_post; [done|].
  intros v s1 Hv%elem_of_seq Hs1. apply post_bind.
  eapply post_mono; [apply adjacency_post; lia | | ].
  - intros adj ->. apply for_each_post; [done|].
    intros x s2 [w Hw]%elem_of_neighbours Hs2. by eapply relax_post.
  - intros e [-> Hsq]. auto.
Qed.

Lemma relax_passes_post (n : nat) (st : arrays) :
  I st → post I E (for_each (passes n) (λ _ st, relax_pass weight st) st).
Proof.
  intros Hst. apply for_each_post; [done|].
  intros _ s1 _ Hs1. by apply relax_pass_post.
Qed.
End run.

Section detection.
Context (weight : matrix) (E : exn → Prop).
Hypothesis E_short_row : ¬ square weight → E IndexError.
Hypothesis E_cycle : E NegativeCycle.

(** The detection pass returns the arrays it was given, and only if they
    are stable. *)
Lemma detect_pass_post (st : arrays) :
  lengths_ok weight st →
  post (λ st', st' = st ∧ stable weight st.2) E (detect_pass weight st).
Proof.
  intros [Hp Hd]. unfold detect_pass.
  eapply post_mono;
    [apply (for_each_prefix_post
              (λ pre s, s = st ∧
                 ∀ v x w dv dx, v ∈ pre → edge weight v x w →
                   st.2 !! v = Some dv → st.2 !! x = Some dx →
                   ¬ (dv + w < dx)%Z) E) | | auto].
  - split; [done|]. intros v x w dv dx Hv. by apply elem_of_nil in Hv.
  - intros pre v s1 Hv%elem_of_seq [-> Hpre]. apply post_bind.
    eapply post_mono; [apply adjacency_post; lia | | ].
    + intros adj ->.
      eapply post_mono;
        [apply (for_each_prefix_post
                  (λ pre' s, s = st ∧
                     ∀ x w dv dx, x ∈ pre' → edge weight v x w →
                       st.2 !! v = Some dv → st.2 !! x = Some dx →
                       ¬ (dv + w < dx)%Z) E) | | auto].
      * split; [done|]. intros x w dv dx Hx. by apply elem_of_nil in Hx.
      * intros pre' x s2 [w Hw]%elem_of_neighbours [-> Hpre'].
        destruct (edge_lt _ _ _ _ Hw) as [Hv' Hx'].
        destruct (lookup_lt_is_Some_2 st.2 v) as [dv Hdv]; [lia|].
        destruct (lookup_lt_is_Some_2 st.2 x) as [dx Hdx]; [lia|].
        rewrite (detect_edge _ _ _ _ _ _ _ Hw Hdv Hdx).
        case_bool_decide as Hgt; simpl; [done|].
        split; [done|].
        intros x' w' dv' dx' [Hin | ->%list_elem_of_singleton]%elem_of_app
          He' Hdv' Hdx'.
        -- by eapply Hpre'.
        -- destruct Hw as (_ & row & Hrow & Hc).
           destruct He' as (_ & row' & Hrow' & Hc').
           simplify_eq. lia.
      * simpl. intros s [-> Hall]. split; [done|].
        intros v' x w dv dx [Hin | ->%list_elem_of_singleton]%elem_of_app
          He Hdv Hdx.
        -- by eapply Hpre.
        -- eapply Hall; eauto. apply elem_of_neighbours. eauto.
    + intros e [-> Hsq]. auto.
  - simpl. intros s [-> Hall]. split; [done|].
    intros v x w dv dx He Hdv Hdx. eapply Hall; eauto.
    apply elem_of_seq. destruct (edge_lt _ _ _ _ He). lia.
Qed.
End detection.

(** *** Initialisation *)

Lemma py_index_lt (n : nat) (i : Z) (k : nat) : py_index n i = Ok k → k < n.
Proof.
  unfold py_index. repeat case_decide; intros; simplify_eq; lia.
Qed.

Lemma py_index_valid (n : nat) (i : Z) :
  (0 ≤ i < Z.of_nat n)%Z → py_index n i = Ok (Z.to_nat i).
Proof. intros H. unfold py_index. by rewrite decide_True. Qed.

Lemma initialise_post (weight : matrix) (source : Z) :
  post (λ st, ∃ k, py_index (length weight) source = Ok k ∧
                   st = (replicate (length weight) EVE,
                         <[k:=0%Z]> (replicate (length weight) INFINITY)))
       (λ e, e = IndexError ∧ ¬ valid_source weight source)
       (initialise weight source).
Proof.
  unfold initialise. rewrite length_replicate.
  destruct (py_index (length weight) source) as [k|e] eqn:Hk; simpl.
  - pose proof (py_index_lt _ _ _ Hk) as Hlt.
    unfold setitem. rewrite length_replicate, decide_True by done. simpl. eauto.
  - unfold py_index in Hk. repeat case_decide; simplify_eq.
    split; [done|]. unfold valid_source. lia.
Qed.

Lemma lookup_initial_distance (n k x : nat) (d : Z) :
  <[k:=0%Z]> (replicate n INFINITY) !! x = Some d → d = initial_distance k x.
Proof.
  unfold initial_distance. intros H. case_decide as Hx.
  - subst x. pose proof (lookup_lt_Some _ _ _ H) as Hlt.
    rewrite length_insert in Hlt.
    rewrite list_lookup_insert_eq in H by done. congruence.
  - rewrite list_lookup_insert_ne in H by done.
    by apply lookup_replicate in H as [-> _].
Qed.

(** *** The whole run *)

Lemma run_post (weight : matrix) (source : Z) (I : arrays → Prop) (E : exn → Prop) :
  (¬ square weight → E IndexError) →
  (¬ valid_source weight source → E IndexError) →
  E NegativeCycle →
  (∀ st, I st → lengths_ok weight st) →
  relax_closed weight I →
  (∀ st, initialise weight source = Ok st → I st) →
  post (λ st, I st ∧ stable weight st.2) E (singleSourceShortestPath weight source).
Proof.
  intros Esq Esrc Ecyc Ilen Iclosed Iinit. unfold singleSourceShortestPath.
  apply post_bind.
  pose proof (initialise_post weight source) as Hinit.
  destruct (initialise weight source) as [st0|e]; simpl in *;
    [|destruct Hinit as [-> ?]; auto].
  specialize (Iinit st0 eq_refl). clear Hinit.
  apply post_bind.
  eapply post_mono; [by apply relax_passes_post | | auto].
  intros st1 Hst1. simpl. apply post_bind.
  eapply post_mono; [apply detect_pass_post; eauto | | auto].
  simpl. intros st2 [-> Hstable]. done.
Qed.

(** *** Invariants of relaxation *)

Lemma relax_closed_and (G : matrix) (I J : arrays → Prop) :
  relax_closed G I → relax_closed G J → relax_closed G (λ st, I st ∧ J st).
Proof.
  intros HI HJ v x w pred minDist dv dx He Hlen [Hi Hj] Hv Hx Hlt.
  split; [eapply HI | eapply HJ]; eauto.
Qed.

Lemma relax_closed_lengths (G : matrix) : relax_closed G (lengths_ok G).
Proof.
  intros v x w pred minDist dv dx He [Hp Hd] _ Hv Hx Hlt.
  split; simpl in *; by rewrite length_insert.
Qed.

Lemma relax_closed_below_infinity (G : matrix) : relax_closed G below_infinity.
Proof.
  intros v x w pred minDist dv dx He _ Hinf Hv Hx Hlt y d. simpl.
  destruct (decide (y = x)) as [->|Hne].
  - rewrite list_lookup_insert_eq by by eapply lookup_lt_Some.
    intros [= <-]. specialize (Hinf x dx Hx). lia.
  - rewrite list_lookup_insert_ne by done. apply Hinf.
Qed.

Lemma relax_closed_pred_edges (G : matrix) : relax_closed G (pred_edges G).
Proof.
  intros v x w pred minDist dv dx He [Hp Hd] Hinv Hv Hx Hlt y p. simpl in *.
  pose proof (lookup_lt_Some _ _ _ Hx) as Hxlt.
  pose proof (lookup_lt_Some _ _ _ Hv) as Hvlt.
  destruct (decide (y = x)) as [->|Hne].
  - rewrite list_lookup_insert_eq by lia. intros [= <-] _.
    rewrite Nat2Z.id.
    exists w, (if decide (v = x) then dv + w else dv)%Z, (dv + w)%Z.
    split; [lia|]. split; [done|].
    rewrite list_lookup_insert_eq by lia.
    destruct (decide (v = x)) as [->|Hvx].
    + rewrite list_lookup_insert_eq by lia. simplify_eq. split_and!; [done..|lia].
    + rewrite list_lookup_insert_ne by done. split_and!; [done..|lia].
  - rewrite list_lookup_insert_ne by done. intros Hy Hpe.
    destruct (Hinv y p Hy Hpe) as (w0 & dp & dy & Hp0 & He0 & Hdp & Hdy & Hle).
    simpl in Hdp, Hdy.
    rewrite (list_lookup_insert_ne _ x y) by done.
    destruct (decide (Z.to_nat p = x)) as [Hpx|Hpx].
    + exists w0, (dv + w)%Z, dy. rewrite Hpx in *.
      rewrite list_lookup_insert_eq by lia. simplify_eq.
      split_and!; [done..|lia].
    + exists w0, dp, dy. rewrite list_lookup_insert_ne by done. done.
Qed.

Lemma relax_closed_from_walks (G : matrix) (k : nat) : relax_closed G (from_walks G k).
Proof.
  intros v x w pred minDist dv dx He _ Hinv Hv Hx Hlt y d. simpl in *.
  destruct (decide (y = x)) as [->|Hne].
  - rewrite list_lookup_insert_eq by by eapply lookup_lt_Some.
    intros [= <-].
    destruct (Hinv v dv Hv) as (u & W & Hwalk & ->).
    exists u, (W + w)%Z. split; [by eapply walk_snoc | lia].
  - rewrite list_lookup_insert_ne by done. apply Hinv.
Qed.

Lemma relax_closed_pred_iff_lowered (G : matrix) (k : nat) :
  relax_closed G (pred_iff_lowered k).
Proof.
  intros v x w pred minDist dv dx He [Hp Hd] Hinv Hv Hx Hlt y p d. simpl in *.
  pose proof (lookup_lt_Some _ _ _ Hx) as Hxlt.
  destruct (decide (y = x)) as [->|Hne].
  - rewrite !list_lookup_insert_eq by lia. intros [= <-] [= <-].
    right. split; [unfold EVE; lia|].
    destruct (lookup_lt_is_Some_2 pred x) as [p0 Hp0]; [lia|].
    destruct (Hinv x p0 dx Hp0 Hx) as [[_ ?]|[_ ?]]; lia.
  - rewrite !list_lookup_insert_ne by done. apply Hinv.
Qed.

(** The invariants hold of the arrays the run starts from. *)
Lemma initial_invariants (weight : matrix) (source : Z) (st : arrays) :
  initialise weight source = Ok st →
  ∃ k, py_index (length weight) source = Ok k ∧
       lengths_ok weight st ∧ below_infinity st ∧ pred_edges weight st ∧
       from_walks weight k st ∧ pred_iff_lowered k st.
Proof.
  intros Hst. pose proof (initialise_post weight source) as H.
  rewrite Hst in H. destruct H as (k & Hk & ->). exists k.
  split; [done|]. split_and!.
  - split; simpl; by rewrite ?length_insert, length_replicate.
  - intros x d Hd. simpl in Hd. apply lookup_initial_distance in Hd as ->.
    unfold initial_distance. case_decide; [by vm_compute | done].
  - intros x p Hp Hne. simpl in Hp. by apply lookup_replicate in Hp as [-> _].
  - intros x d Hd. simpl in Hd.
    pose proof (lookup_lt_Some _ _ _ Hd) as Hlt.
    rewrite length_insert, length_replicate in Hlt.
    apply lookup_initial_distance in Hd as ->.
    exists x, 0%Z. split; [by constructor | lia].
  - intros x p d Hp Hd. simpl in *.
    apply lookup_replicate in Hp as [-> _].
    apply lookup_initial_distance in Hd as ->. by left.
Qed.

(** A stable distance array is a potential: walks cannot undercut it. *)
Lemma stable_walk (G : matrix) (minDist : list Z) (u x : nat) (W du dx : Z) :
  stable G minDist → length minDist = length G → walk G u x W →
  minDist !! u = Some du → minDist !! x = Some dx → (dx ≤ du + W)%Z.
Proof.
  intros Hst Hlen Hw. revert du dx. induction Hw as [u Hu|u v x W w Hw IH He];
    intros du dx Hdu Hdx.
  - simplify_eq. lia.
  - destruct (edge_lt _ _ _ _ He) as [Hv Hx].
    destruct (lookup_lt_is_Some_2 minDist v) as [dv Hdv]; [lia|].
    specialize (IH du dv Hdu Hdv).
    pose proof (Hst v x w dv dx He Hdv Hdx). lia.
Qed.

Lemma walk_lt (G : matrix) (u x : nat) (W : Z) :
  walk G u x W → u < length G ∧ x < length G.
Proof.
  induction 1 as [u Hu|u v x W w Hw [IHu IHv] He]; [done|].
  split; [done|]. by destruct (edge_lt _ _ _ _ He).
Qed.

Lemma stable_no_negative_cycle (G : matrix) (minDist : list Z) :
  stable G minDist → length minDist = length G → ¬ negative_cycle G.
Proof.
  intros Hst Hlen (v & W & Hw & Hneg).
  destruct (walk_lt _ _ _ _ Hw) as [Hv _].
  destruct (lookup_lt_is_Some_2 minDist v) as [dv Hdv]; [lia|].
  pose proof (stable_walk _ _ _ _ _ _ _ Hst Hlen Hw Hdv Hdv). lia.
Qed.

(** * The claims, on the value-level model *)

Lemma edge_compute (G : matrix) (v x : nat) (w : Z) :
  (x <? length G) = true →
  match G !! v with Some row => row !! x | None => None end = Some (Some w) →
  edge G v x w.
Proof.
  intros Hx%Nat.ltb_lt H. split; [done|].
  destruct (G !! v) as [row|]; [|done]. exists row. split; [done|]. exact H.
Defined.

Lemma square_compute (G : matrix) :
  forallb (λ row, length row =? length G) G = true → square G.
Proof.
  intros H. unfold square. apply Forall_forall. intros row Hrow.
  rewrite forallb_forall in H. apply Nat.eqb_eq, H. by apply list_elem_of_In.
Defined.

(** C1: the relaxation pass is meant to run V-1 times; on the two-vertex
    graph with the single edge 0→1 the loop of line 78 runs it 0 times, so
    the detection pass finds the edge still improvable and the call raises
    the negative-cycle error, although one pass followed by the detection
    pass returns distances [0, 5] and predecessors [none, 0]. *)
Theorem one_edge_graph_not_relaxed :
  length (passes (length weight_one_edge)) = 0 ∧
  singleSourceShortestPath weight_one_edge 0 = Raise NegativeCycle ∧
  (st ← initialise weight_one_edge 0;
   st ← relax_pass weight_one_edge st;
   detect_pass weight_one_edge st) = Ok ([EVE; 0%Z], [0%Z; 5%Z]).
Proof. split_and!; reflexivity. Qed.

(** C5: on the five-vertex matrix of the demonstration run, with source 0,
    the call returns distances [0, 7, 9, 5, 3] and predecessors
    [none, 4, 1, 4, 0]. *)
Theorem positive_example :
  singleSourceShortestPath weight_positive 0
  = Ok ([EVE; 4; 1; 4; 0]%Z, [0; 7; 9; 5; 3]%Z).
Proof. reflexivity. Qed.

(** C7: on the one-vertex graph without edges, with source 0, the call
    returns distance [0] and predecessor [none]. *)
Theorem single_vertex :
  singleSourceShortestPath [[None]] 0 = Ok ([EVE], [0%Z]).
Proof. reflexivity. Qed.

(** *** What a returned result satisfies *)

Lemma returned_invariants (weight : matrix) (source : Z) (st : arrays) :
  singleSourceShortestPath weight source = Ok st →
  ∃ k, py_index (length weight) source = Ok k ∧
       lengths_ok weight st ∧ below_infinity st ∧ pred_edges weight st ∧
       from_walks weight k st ∧ pred_iff_lowered k st ∧ stable weight st.2.
Proof.
  intros Hrun.
  destruct (initialise weight source) as [st0|e] eqn:Hinit;
    [|by unfold singleSourceShortestPath in Hrun; rewrite Hinit in Hrun].
  destruct (initial_invariants _ _ _ Hinit) as (k & Hk & H0).
  exists k. split; [done|].
  pose proof (run_post weight source
    (λ st, lengths_ok weight st ∧ below_infinity st ∧ pred_edges weight st ∧
           from_walks weight k st ∧ pred_iff_lowered k st)
    (λ _, True)) as H.
  rewrite Hrun in H. simpl in H.
  destruct H as [(?&?&?&?&?) ?]; try done.
  - by intros ? [? _].
  - apply relax_closed_and; [apply relax_closed_lengths|].
    apply relax_closed_and; [apply relax_closed_below_infinity|].
    apply relax_closed_and; [apply relax_closed_pred_edges|].
    apply relax_closed_and; [apply relax_closed_from_walks|].
    apply relax_closed_pred_iff_lowered.
  - intros st' Hst'. by replace st' with st0 by congruence.
Qed.

(** On a square matrix with a valid source the only exception is the
    negative-cycle error. *)
Lemma run_square (weight : matrix) (source : Z) :
  square weight → valid_source weight source →
  post (λ st, lengths_ok weight st ∧ stable weight st.2) (λ e, e = NegativeCycle)
       (singleSourceShortestPath weight source).
Proof.
  intros Hsq Hsrc.
  apply (run_post weight source (lengths_ok weight) (λ e, e = NegativeCycle));
    try done.
  - apply relax_closed_lengths.
  - intros st Hst. by destruct (initial_invariants _ _ _ Hst) as (k & _ & ? & _).
Qed.

(** C4: whenever the call returns, every vertex x whose predecessor entry is
    a vertex p has distance[x] = distance[p] + weight[p][x], and no edge
    (v, x) of the matrix has distance[v] + weight[v][x] < distance[x]. *)
Theorem returned_fixed_point (weight : matrix) (source : Z) (pred minDist : list Z) :
  singleSourceShortestPath weight source = Ok (pred, minDist) →
  (∀ x p, pred !! x = Some p → p ≠ EVE →
     ∃ w dp dx, (0 ≤ p)%Z ∧ edge weight (Z.to_nat p) x w ∧
       minDist !! Z.to_nat p = Some dp ∧ minDist !! x = Some dx ∧
       dx = (dp + w)%Z) ∧
  (∀ v x w dv dx, edge weight v x w →
     minDist !! v = Some dv → minDist !! x = Some dx → ¬ (dv + w < dx)%Z).
Proof.
  intros Hrun.
  destruct (returned_invariants _ _ _ Hrun) as (k & _ & _ & _ & Hpred & _ & _ & Hst).
  split; [|exact Hst].
  intros x p Hp Hne.
  destruct (Hpred x p Hp Hne) as (w & dp & dx & Hp0 & He & Hdp & Hdx & Hle).
  exists w, dp, dx. split_and!; try done.
  pose proof (Hst _ _ _ _ _ He Hdp Hdx). lia.
Qed.

Lemma returned_fixed_point_witness :
  singleSourceShortestPath weight_positive 0
    = Ok ([EVE; 4; 1; 4; 0]%Z, [0; 7; 9; 5; 3]%Z) ∧
  (∀ x p, [EVE; 4; 1; 4; 0]%Z !! x = Some p → p ≠ EVE →
     ∃ w dp dx, (0 ≤ p)%Z ∧ edge weight_positive (Z.to_nat p) x w ∧
       [0; 7; 9; 5; 3]%Z !! Z.to_nat p = Some dp ∧
       [0; 7; 9; 5; 3]%Z !! x = Some dx ∧ dx = (dp + w)%Z) ∧
  (∀ v x w dv dx, edge weight_positive v x w →
     [0; 7; 9; 5; 3]%Z !! v = Some dv → [0; 7; 9; 5; 3]%Z !! x = Some dx →
     ¬ (dv + w < dx)%Z).
Proof.
  split; [reflexivity|].
  apply (returned_fixed_point weight_positive 0). reflexivity.
Defined.

(** C2 fails as stated: on three vertices where 1 and 2 form a cycle of
    weight -2 and no edge leaves the source 0, the call raises the
    negative-cycle error although no negative cycle is reachable from the
    source. *)
Lemma far_cycle_raises :
  square weight_far_cycle ∧ valid_source weight_far_cycle 0 ∧
  singleSourceShortestPath weight_far_cycle 0 = Raise NegativeCycle ∧
  ¬ negative_cycle_reachable weight_far_cycle 0.
Proof.
  split_and!.
  - by apply square_compute.
  - unfold valid_source. simpl. lia.
  - reflexivity.
  - intros (v & W0 & W & Hreach & Hcycle & Hneg).
    assert (Hsink : ∀ u x W', walk weight_far_cycle u x W' → u = 0 →
                      x = 0 ∧ W' = 0%Z).
    { induction 1 as [u Hu|u y x W' w Hw IH He]; intros ->; [done|].
      destruct (IH eq_refl) as [-> ->].
      destruct He as (_ & row & Hrow & Hc). simpl in Hrow. simplify_eq.
      by destruct x as [|[|[|x]]]. }
    destruct (Hsink _ _ _ Hreach eq_refl) as [-> _].
    destruct (Hsink _ _ _ Hcycle eq_refl) as [_ ->]. lia.
Qed.

(** C2, amended: on a square matrix with a valid source, the call raises the
    negative-cycle error whenever the graph has a cycle of strictly negative
    total weight, reachable from the source or not. *)
Theorem negative_cycle_raises (weight : matrix) (source : Z) :
  square weight → valid_source weight source → negative_cycle weight →
  singleSourceShortestPath weight source = Raise NegativeCycle.
Proof.
  intros Hsq Hsrc Hcycle.
  pose proof (run_square weight source Hsq Hsrc) as H.
  destruct (singleSourceShortestPath weight source) as [st|e]; simpl in H.
  - destruct H as [[_ Hlen] Hst].
    by destruct (stable_no_negative_cycle _ _ Hst Hlen).
  - by rewrite H.
Qed.

Lemma negative_cycle_raises_witness :
  square weight_negative_cycle ∧ valid_source weight_negative_cycle 0 ∧
  negative_cycle weight_negative_cycle ∧
  singleSourceShortestPath weight_negative_cycle 0 = Raise NegativeCycle.
Proof.
  assert (Hsq : square weight_negative_cycle) by by apply square_compute.
  assert (Hsrc : valid_source weight_negative_cycle 0)
    by (unfold valid_source; simpl; lia).
  assert (Hcycle : negative_cycle weight_negative_cycle).
  { exists 1, (0 + 3 + -6)%Z. split; [|lia].
    apply (walk_snoc _ 1 2 1); [apply (walk_snoc _ 1 1 2)|].
    - constructor. simpl. lia.
    - by apply edge_compute.
    - by apply edge_compute. }
  split; [exact Hsq|]. split; [exact Hsrc|]. split; [exact Hcycle|].
  exact (negative_cycle_raises weight_negative_cycle 0 Hsq Hsrc Hcycle).
Defined.

(** *** Unreached vertices *)

Lemma reached_invariants (weight : matrix) (source : Z) (st : arrays) :
  reached weight source st → lengths_ok weight st ∧ below_infinity st.
Proof.
  induction 1 as [st Hinit|st v x w st' Hreached IH He Hrelax].
  - destruct (initial_invariants _ _ _ Hinit) as (k & _ & ? & ? & _). done.
  - pose proof (relax_post weight
      (λ st, lengths_ok weight st ∧ below_infinity st) (λ _, True)) as H.
    assert (Hclosed : relax_closed weight
              (λ st, lengths_ok weight st ∧ below_infinity st))
      by (apply relax_closed_and;
            [apply relax_closed_lengths | apply relax_closed_below_infinity]).
    specialize (H ltac:(by intros ? [? _]) Hclosed v x w st He IH).
    by rewrite Hrelax in H.
Qed.

(** Every returned pair of arrays is one the run could hold. *)
Lemma returned_reached (weight : matrix) (source : Z) (st : arrays) :
  singleSourceShortestPath weight source = Ok st → reached weight source st.
Proof.
  intros Hrun.
  pose proof (run_post weight source
    (λ st, lengths_ok weight st ∧ reached weight source st) (λ _, True)) as H.
  rewrite Hrun in H. simpl in H. apply H; try done.
  - by intros ? [? _].
  - intros v x w pred minDist dv dx He Hlen [_ Hreached] Hv Hx Hlt.
    split; [by eapply relax_closed_lengths|].
    eapply reached_relax; [exact Hreached | exact He |].
    destruct Hlen as [Hp Hd]. simpl in Hp, Hd.
    destruct (edge_lt _ _ _ _ He) as [_ Hxlt].
    rewrite (relax_edge _ _ _ _ _ _ _ _ He Hv Hx) by lia.
    rewrite bool_decide_eq_true_2 by lia. done.
  - intros st' Hst'. split; [|by constructor].
    by destruct (initial_invariants _ _ _ Hst') as (k & _ & ? & _).
Qed.

(** C3 fails as stated: on three vertices whose only edge is 1→2 of weight
    -1, with source 0, vertex 1 starts and stays at INFINITY, and relaxing
    the edge (1, 2) from the initial arrays sets distance[2] to INFINITY - 1
    and predecessor[2] to 1; the call returns these arrays. *)
Lemma far_edge_relaxed :
  initialise weight_far_edge 0
    = Ok ([EVE; EVE; EVE], [0%Z; INFINITY; INFINITY]) ∧
  edge weight_far_edge 1 2 (-1) ∧
  relax weight_far_edge 1 2 ([EVE; EVE; EVE], [0%Z; INFINITY; INFINITY])
    = Ok ([EVE; EVE; 1%Z], [0%Z; INFINITY; (INFINITY - 1)%Z]) ∧
  singleSourceShortestPath weight_far_edge 0
    = Ok ([EVE; EVE; 1%Z], [0%Z; INFINITY; (INFINITY - 1)%Z]).
Proof.
  split_and!; try reflexivity. by apply edge_compute.
Qed.

(** C3, amended: in every pair of arrays a run can hold while it relaxes,
    for an edge (v, x) of weight w whose start v is still at INFINITY:
    distance[x] is at most INFINITY; if w is non-negative, or more generally
    if distance[x] <= INFINITY + w, relaxing the edge leaves both arrays as
    they are; otherwise, which needs w negative and is the case whenever w is
    negative and x is itself still at INFINITY, relaxing the edge sets
    distance[x] to INFINITY + w and predecessor[x] to v and changes nothing
    else. *)
Theorem unreached_vertex_keeps (weight : matrix) (source : Z) (v x : nat) (w : Z)
    (pred minDist : list Z) :
  reached weight source (pred, minDist) →
  minDist !! v = Some INFINITY → edge weight v x w →
  ∃ dx, minDist !! x = Some dx ∧ (dx ≤ INFINITY)%Z ∧
    ((0 ≤ w)%Z → relax weight v x (pred, minDist) = Ok (pred, minDist)) ∧
    ((dx ≤ INFINITY + w)%Z →
     relax weight v x (pred, minDist) = Ok (pred, minDist)) ∧
    ((INFINITY + w < dx)%Z →
     (w < 0)%Z ∧
     relax weight v x (pred, minDist)
     = Ok (<[x:=Z.of_nat v]> pred, <[x:=(INFINITY + w)%Z]> minDist)) ∧
    ((w < 0)%Z → dx = INFINITY →
     relax weight v x (pred, minDist)
     = Ok (<[x:=Z.of_nat v]> pred, <[x:=(INFINITY + w)%Z]> minDist)).
Proof.
  intros Hreached Hv He.
  destruct (reached_invariants _ _ _ Hreached) as [[Hp Hd] Hinf].
  simpl in Hp, Hd.
  destruct (edge_lt _ _ _ _ He) as [_ Hx].
  destruct (lookup_lt_is_Some_2 minDist x) as [dx Hdx]; [lia|].
  assert (Hxp : x < length pred) by lia.
  pose proof (relax_edge weight v x w pred minDist INFINITY dx He Hv Hdx Hxp)
    as Hrelax.
  specialize (Hinf x dx Hdx).
  exists dx. split; [done|]. split; [done|]. split_and!.
  - intros Hw. rewrite Hrelax. by rewrite bool_decide_eq_false_2 by lia.
  - intros Hle. rewrite Hrelax. by rewrite bool_decide_eq_false_2 by lia.
  - intros Hlt. split; [lia|].
    rewrite Hrelax. by rewrite bool_decide_eq_true_2 by lia.
  - intros Hw ->. rewrite Hrelax. by rewrite bool_decide_eq_true_2 by lia.
Qed.

Lemma unreached_vertex_keeps_witness :
  (reached weight_far_edge 0 ([EVE; EVE; EVE], [0%Z; INFINITY; INFINITY]) ∧
   edge weight_far_edge 1 2 (-1) ∧
   ∃ dx, [0%Z; INFINITY; INFINITY] !! 2 = Some dx ∧ (dx ≤ INFINITY)%Z ∧
     ((0 ≤ -1)%Z →
      relax weight_far_edge 1 2 ([EVE; EVE; EVE], [0%Z; INFINITY; INFINITY])
      = Ok ([EVE; EVE; EVE], [0%Z; INFINITY; INFINITY])) ∧
     ((dx ≤ INFINITY + -1)%Z →
      relax weight_far_edge 1 2 ([EVE; EVE; EVE], [0%Z; INFINITY; INFINITY])
      = Ok ([EVE; EVE; EVE], [0%Z; INFINITY; INFINITY])) ∧
     ((INFINITY + -1 < dx)%Z →
      (-1 < 0)%Z ∧
      relax weight_far_edge 1 2 ([EVE; EVE; EVE], [0%Z; INFINITY; INFINITY])
      = Ok (<[2:=Z.of_nat 1]> [EVE; EVE; EVE],
            <[2:=(INFINITY + -1)%Z]> [0%Z; INFINITY; INFINITY])) ∧
     ((-1 < 0)%Z → dx = INFINITY →
      relax weight_far_edge 1 2 ([EVE; EVE; EVE], [0%Z; INFINITY; INFINITY])
      = Ok (<[2:=Z.of_nat 1]> [EVE; EVE; EVE],
            <[2:=(INFINITY + -1)%Z]> [0%Z; INFINITY; INFINITY]))) ∧
  (reached weight_positive 0 ([EVE; EVE; EVE; EVE; EVE],
                              [0%Z; INFINITY; INFINITY; INFINITY; INFINITY]) ∧
   edge weight_positive 1 2 2 ∧
   relax weight_positive 1 2 ([EVE; EVE; EVE; EVE; EVE],
                              [0%Z; INFINITY; INFINITY; INFINITY; INFINITY])
   = Ok ([EVE; EVE; EVE; EVE; EVE],
         [0%Z; INFINITY; INFINITY; INFINITY; INFINITY])).
Proof.
  split.
  - assert (Hr : reached weight_far_edge 0
                   ([EVE; EVE; EVE], [0%Z; INFINITY; INFINITY]))
      by (constructor; reflexivity).
    assert (He : edge weight_far_edge 1 2 (-1)) by by apply edge_compute.
    split; [exact Hr|]. split; [exact He|].
    exact (unreached_vertex_keeps weight_far_edge 0 1 2 (-1) _ _ Hr eq_refl He).
  - assert (Hr : reached weight_positive 0
                   ([EVE; EVE; EVE; EVE; EVE],
                    [0%Z; INFINITY; INFINITY; INFINITY; INFINITY]))
      by (constructor; reflexivity).
    assert (He : edge weight_positive 1 2 2) by by apply edge_compute.
    split; [exact Hr|]. split; [exact He|].
    destruct (unreached_vertex_keeps weight_positive 0 1 2 2 _ _ Hr eq_refl He)
      as (dx & _ & _ & Hkeep & _).
    apply Hkeep. lia.
Defined.

(** *** The source's own entries *)

Lemma nonnegative_walk (G : matrix) (u x : nat) (W : Z) :
  nonnegative G → walk G u x W → (0 ≤ W)%Z.
Proof.
  intros Hnn. induction 1 as [u Hu|u v x W w Hw IH He]; [lia|].
  specialize (Hnn _ _ _ He). lia.
Qed.

Lemma nonnegative_shallow (G : matrix) (k : nat) :
  nonnegative G → shallow_walks G k.
Proof.
  intros Hnn u W _ Hw. pose proof (nonnegative_walk _ _ _ _ Hnn Hw).
  assert (0 ≤ INFINITY)%Z by by vm_compute. lia.
Qed.

(** C10 fails as stated: with edges 1→2 and 2→0 of weight -maxint each and
    source 0, the call returns, and the source's entries are distance
    -maxint and predecessor 2. *)
Lemma deep_walk_lowers_source :
  singleSourceShortestPath weight_deep 0
    = Ok ([2%Z; EVE; 1%Z], [(- maxint)%Z; INFINITY; 0%Z]).
Proof. reflexivity. Qed.

(** C10, amended: whenever the call returns, both arrays have length
    len(weight); and if no walk into the source from another vertex weighs
    less than -INFINITY (as when every weight is non-negative), the source's
    distance entry is 0 and its predecessor entry is still EVE. *)
Theorem returned_source_entries (weight : matrix) (source : Z) (pred minDist : list Z) :
  singleSourceShortestPath weight source = Ok (pred, minDist) →
  ∃ k, py_index (length weight) source = Ok k ∧
       length pred = length weight ∧ length minDist = length weight ∧
       (shallow_walks weight k →
        minDist !! k = Some 0%Z ∧ pred !! k = Some EVE).
Proof.
  intros Hrun.
  destruct (returned_invariants _ _ _ Hrun)
    as (k & Hk & [Hp Hd] & _ & _ & Hwalks & Hlow & Hst).
  simpl in *. exists k. split_and!; try done.
  intros Hshallow.
  pose proof (py_index_lt _ _ _ Hk) as Hlt.
  destruct (lookup_lt_is_Some_2 minDist k) as [d Hdk]; [lia|].
  destruct (lookup_lt_is_Some_2 pred k) as [p Hpk]; [lia|].
  assert (Hge : (0 ≤ d)%Z).
  { destruct (Hwalks k d Hdk) as (u & W & Hw & ->).
    unfold initial_distance. case_decide as Hu.
    - subst u. pose proof (stable_walk _ _ _ _ _ _ _ Hst Hd Hw Hdk Hdk). lia.
    - exact (Hshallow u W Hu Hw). }
  destruct (Hlow k p d Hpk Hdk) as [[-> ->]|[_ Hd0]];
    unfold initial_distance in *; rewrite decide_True in * by done.
  - done.
  - lia.
Qed.

Lemma nonnegative_positive : nonnegative weight_positive.
Proof.
  intros v x w (Hx & row & Hrow & Hc).
  destruct v as [|[|[|[|[|v]]]]]; simpl in Hrow; simplify_eq;
    destruct x as [|[|[|[|[|x]]]]]; simpl in Hc; simplify_eq; lia.
Defined.

Lemma returned_source_entries_witness :
  singleSourceShortestPath weight_positive 0
    = Ok ([EVE; 4; 1; 4; 0]%Z, [0; 7; 9; 5; 3]%Z) ∧
  shallow_walks weight_positive 0 ∧
  length [EVE; 4; 1; 4; 0]%Z = length weight_positive ∧
  length [0; 7; 9; 5; 3]%Z = length weight_positive ∧
  [0; 7; 9; 5; 3]%Z !! 0 = Some 0%Z ∧ [EVE; 4; 1; 4; 0]%Z !! 0 = Some EVE.
Proof.
  assert (Hshallow : shallow_walks weight_positive 0)
    by (apply nonnegative_shallow; exact nonnegative_positive).
  destruct (returned_source_entries weight_positive 0
              [EVE; 4; 1; 4; 0]%Z [0; 7; 9; 5; 3]%Z eq_refl)
    as (k & Hk & Hp & Hd & Hsrc).
  assert (k = 0) as -> by (vm_compute in Hk; congruence).
  destruct (Hsrc Hshallow) as [Hd0 Hp0].
  split; [reflexivity|]. split; [exact Hshallow|].
  split; [exact Hp|]. split; [exact Hd|]. split; [exact Hd0 | exact Hp0].
Defined.

(** * The store-level model refines the value-level model *)

(** The value-level steps by cases on the subscripts. *)

Lemma candidate_cases (weight : matrix) (minDist : list Z) (v x : nat) :
  candidate weight minDist v x
  = match minDist !! v with
    | None => Raise IndexError
    | Some dv =>
        match weight !! v with
        | None => Raise IndexError
        | Some row =>
            match row !! x with
            | None => Raise IndexError
            | Some None => Raise TypeError
            | Some (Some w) => Ok (dv + w)%Z
            end
        end
    end.
Proof.
  unfold candidate, getitem.
  destruct (minDist !! v); [|done]. simpl.
  destruct (weight !! v) as [row|]; [|done]. simpl.
  by destruct (row !! x) as [[w|]|].
Qed.

Lemma improvable_cases (weight : matrix) (minDist : list Z) (v x : nat) :
  improvable weight minDist v x
  = match minDist !! x with
    | None => Raise IndexError
    | Some dx =>
        match candidate weight minDist v x with
        | Ok s => Ok (bool_decide (dx > s)%Z)
        | Raise e => Raise e
        end
    end.
Proof.
  unfold improvable, getitem. destruct (minDist !! x); [|done]. simpl.
  by destruct (candidate weight minDist v x).
Qed.

Lemma relax_cases (weight : matrix) (v x : nat) (pred minDist : list Z) :
  relax weight v x (pred, minDist)
  = match improvable weight minDist v x with
    | Raise e => Raise e
    | Ok false => Ok (pred, minDist)
    | Ok true =>
        match candidate weight minDist v x with
        | Raise e => Raise e
        | Ok s =>
            match setitem minDist x s with
            | Raise e => Raise e
            | Ok minDist' =>
                match setitem pred x (Z.of_nat v) with
                | Raise e => Raise e
                | Ok pred' => Ok (pred', minDist')
                end
            end
        end
    end.
Proof.
  unfold relax. by destruct (improvable weight minDist v x) as [[|]|].
Qed.

Lemma detect_cases (weight : matrix) (v x : nat) (st : arrays) :
  detect weight v x st
  = match improvable weight st.2 v x with
    | Raise e => Raise e
    | Ok false => Ok st
    | Ok true => Raise NegativeCycle
    end.
Proof. unfold detect. by destruct (improvable weight st.2 v x) as [[|]|]. Qed.

Lemma initialise_cases (weight : matrix) (source : Z) :
  initialise weight source
  = match py_index (length weight) source with
    | Ok k => Ok (replicate (length weight) EVE,
                  <[k:=0%Z]> (replicate (length weight) INFINITY))
    | Raise e => Raise e
    end.
Proof.
  unfold initialise. rewrite length_replicate.
  destruct (py_index (length weight) source) as [k|e] eqn:Hk; [|done]. simpl.
  unfold setitem. rewrite length_replicate.
  by rewrite decide_True by by eapply py_index_lt.
Qed.

Section store.
(** The value-level functions whose names the store-level model reuses. *)
Local Abbreviation value_for_each := for_each.
Local Abbreviation value_adjacency := adjacency.
Local Abbreviation value_relax := relax.
Local Abbreviation value_detect := detect.
Local Abbreviation value_run := singleSourceShortestPath.
Local Abbreviation value_candidate := candidate.
Local Abbreviation value_improvable := improvable.
Local Abbreviation value_setitem := setitem.
Import Store.

(** *** Single steps *)

Lemma run_bind_ok {A B : Type} (m : M A) (f : A → M B) (h h' : heap) (a : A) :
  m h = (Ok a, h') → (m ≫= f) h = f a h'.
Proof. intros H. unfold mbind, M_bind. by rewrite H. Qed.

Lemma run_bind_raise {A B : Type} (m : M A) (f : A → M B) (h h' : heap) (e : exn) :
  m h = (Raise e, h') → (m ≫= f) h = (Raise e, h').
Proof. intros H. unfold mbind, M_bind. by rewrite H. Qed.

Lemma fresh_unused (h : heap) : h !! fresh (dom h) = None.
Proof. apply not_elem_of_dom, is_fresh. Qed.

Lemma elements_of_ref (h : heap) (l : positive) (xs : list val) :
  h !! l = Some xs → elements_of (VRef l) h = (Ok xs, h).
Proof. intros H. unfold elements_of. by rewrite H. Qed.

Lemma len_ref (h : heap) (l : positive) (xs : list val) :
  h !! l = Some xs → len (VRef l) h = (Ok (length xs), h).
Proof.
  intros H. unfold len. by rewrite (run_bind_ok _ _ _ _ _ (elements_of_ref _ _ _ H)).
Qed.

Lemma getitem_ref (h : heap) (l : positive) (xs : list val) (i : nat) :
  h !! l = Some xs →
  Store.getitem (VRef l) (VInt (Z.of_nat i)) h
  = (match xs !! i with Some a => Ok a | None => Raise IndexError end, h).
Proof.
  intros H. unfold Store.getitem.
  rewrite (run_bind_ok _ _ _ _ _ (elements_of_ref _ _ _ H)).
  destruct (xs !! i) as [a|] eqn:Hi.
  - pose proof (lookup_lt_Some _ _ _ Hi) as Hlt.
    erewrite run_bind_ok;
      [|unfold index_of, lift; rewrite py_index_valid by lia; reflexivity].
    by rewrite Nat2Z.id, Hi.
  - apply lookup_ge_None in Hi.
    apply run_bind_raise. unfold index_of, lift, py_index.
    rewrite !decide_False by lia. done.
Qed.

Lemma setitem_ref_Z (h : heap) (l : positive) (xs : list val) (i : Z) (a : val) :
  h !! l = Some xs →
  Store.setitem (VRef l) (VInt i) a h
  = match py_index (length xs) i with
    | Ok k => (Ok (), <[l:=<[k:=a]> xs]> h)
    | Raise e => (Raise e, h)
    end.
Proof.
  intros H. unfold Store.setitem.
  rewrite (run_bind_ok _ _ _ _ _ (elements_of_ref _ _ _ H)).
  destruct (py_index (length xs) i) as [k|e] eqn:Hk.
  - erewrite run_bind_ok; [done|]. unfold index_of, lift. by rewrite Hk.
  - apply run_bind_raise. unfold index_of, lift. by rewrite Hk.
Qed.

Lemma setitem_ref (h : heap) (l : positive) (xs : list val) (i : nat) (a : val) :
  h !! l = Some xs → i < length xs →
  Store.setitem (VRef l) (VInt (Z.of_nat i)) a h = (Ok (), <[l:=<[i:=a]> xs]> h).
Proof.
  intros H Hi. rewrite (setitem_ref_Z _ _ _ _ _ H).
  rewrite py_index_valid by lia. by rewrite Nat2Z.id.
Qed.

Lemma append_ref (h : heap) (l : positive) (xs : list val) (a : val) :
  h !! l = Some xs → append (VRef l) a h = (Ok (), <[l:=xs ++ [a]]> h).
Proof.
  intros H. unfold append.
  by rewrite (run_bind_ok _ _ _ _ _ (elements_of_ref _ _ _ H)).
Qed.

(** *** Refinement *)

Lemma refines_bind {A A' B B' : Type}
    (R1 : A → A' → heap → Prop) (R2 : B → B' → heap → Prop) (F : heap → Prop)
    (p : outcome A) (f : A → outcome B) (m : M A') (g : A' → M B') (h : heap) :
  refines R1 F p m h →
  (∀ a a' h', R1 a a' h' → refines R2 F (f a) (g a') h') →
  refines R2 F (p ≫= f) (m ≫= g) h.
Proof.
  unfold refines at 1. intros H Hk.
  destruct p as [a|e], (m h) as [[a'|e'] h'] eqn:Hm; try done.
  - simpl. unfold refines. rewrite (run_bind_ok _ _ _ _ _ Hm). by apply Hk.
  - simpl. unfold refines. by rewrite (run_bind_raise _ _ _ _ _ Hm).
Qed.

Lemma refines_mono {A B : Type} (R R' : A → B → heap → Prop) (F F' : heap → Prop)
    (p : outcome A) (m : M B) (h : heap) :
  refines R F p m h →
  (∀ a b h', R a b h' → R' a b h') → (∀ h', F h' → F' h') →
  refines R' F' p m h.
Proof.
  unfold refines. intros Hpm HR HF.
  destruct p, (m h) as [[|] ?]; try done; [by apply HR|].
  destruct Hpm. split; [done | by apply HF].
Qed.

(** A store-level step that returns without a value-level counterpart. *)
Lemma refines_step {A B B' : Type} (R : A → B → heap → Prop) (F : heap → Prop)
    (p : outcome A) (m : M B') (g : B' → M B) (h h' : heap) (b : B') :
  m h = (Ok b, h') → refines R F p (g b) h' → refines R F p (m ≫= g) h.
Proof. intros Hm H. unfold refines. by rewrite (run_bind_ok _ _ _ _ _ Hm). Qed.

Lemma refines_for_each {X Y S : Type} (T : X → Y → Prop)
    (I : S → heap → Prop) (F : heap → Prop)
    (xs : list X) (ys : list Y) (body : X → S → outcome S) (sbody : Y → M ())
    (s : S) (h : heap) :
  Forall2 T xs ys → I s h →
  (∀ x y s h, T x y → x ∈ xs → I s h →
     refines (λ s' _ h', I s' h') F (body x s) (sbody y) h) →
  refines (λ s' _ h', I s' h') F
    (value_for_each xs body s) (Store.for_each ys sbody) h.
Proof.
  intros HT. revert s h. induction HT as [|x y xs ys Hxy HT IH];
    intros s h Hs Hbody; simpl.
  - exact Hs.
  - eapply refines_bind; [apply Hbody; [done | left | done]|].
    intros s' [] h' Hs'. apply IH; [done|].
    intros x' y' s1 h1 Hx'y' Hin. apply Hbody; [done | by right].
Qed.

Lemma holds_matrix_weaken (h h' : heap) (weight : val) (G : matrix) :
  holds_matrix h weight G → h ⊆ h' → holds_matrix h' weight G.
Proof.
  intros (l & rows & -> & Hl & Hrows) Hsub. exists l, rows.
  split; [done|]. split; [by eapply lookup_weaken|].
  eapply Forall2_impl; [exact Hrows|]. simpl.
  intros r row Hr. by eapply lookup_weaken.
Qed.

Lemma range_indices (n : nat) : range n = indices (seq 0 n).
Proof. done. Qed.

Lemma Forall2_indices (xs : list nat) :
  Forall2 (λ (x : nat) (y : val), y = VInt (Z.of_nat x)) xs (indices xs).
Proof. unfold indices. apply Forall2_fmap_r, Forall_Forall2_diag, Forall_forall. done. Qed.

(** [weight[v][x]] in a heap that holds the matrix. *)
Lemma getitem_row (h : heap) (weight : val) (G : matrix) (v : nat) :
  holds_matrix h weight G →
  match G !! v with
  | Some row => ∃ r, Store.getitem weight (VInt (Z.of_nat v)) h = (Ok (VRef r), h) ∧
                     h !! r = Some (cell <$> row)
  | None => Store.getitem weight (VInt (Z.of_nat v)) h = (Raise IndexError, h)
  end.
Proof.
  intros (l & rows & -> & Hl & Hrows).
  rewrite (getitem_ref _ _ _ _ Hl), list_lookup_fmap.
  destruct (G !! v) as [row|] eqn:Hrow.
  - destruct (Forall2_lookup_r _ _ _ _ _ Hrows Hrow) as (r & Hr & Hrr).
    rewrite Hr. simpl. eauto.
  - apply lookup_ge_None in Hrow.
    rewrite (lookup_ge_None_2 rows v); [done|].
    apply Forall2_length in Hrows. lia.
Qed.
Lemma refines_then {A A' B' : Type}
    (R1 : A → A' → heap → Prop) (R2 : A → B' → heap → Prop) (F : heap → Prop)
    (p : outcome A) (m : M A') (g : A' → M B') (h : heap) :
  refines R1 F p m h →
  (∀ a a' h', R1 a a' h' → refines R2 F (Ok a) (g a') h') →
  refines R2 F p (m ≫= g) h.
Proof.
  intros H Hk. replace p with (p ≫= Ok) by by destruct p.
  by eapply refines_bind.
Qed.

Lemma getitem_cell (h : heap) (r : positive) (row : list (option Z)) (x : nat) :
  h !! r = Some (cell <$> row) →
  Store.getitem (VRef r) (VInt (Z.of_nat x)) h
  = (match row !! x with Some c => Ok (cell c) | None => Raise IndexError end, h).
Proof.
  intros Hr. rewrite (getitem_ref _ _ _ _ Hr), list_lookup_fmap.
  by destruct (row !! x).
Qed.

Lemma getitem_int (h : heap) (l : positive) (xs : list Z) (x : nat) :
  h !! l = Some (ints xs) →
  Store.getitem (VRef l) (VInt (Z.of_nat x)) h
  = (match xs !! x with Some d => Ok (VInt d) | None => Raise IndexError end, h).
Proof.
  intros Hl. unfold ints in Hl. rewrite (getitem_ref _ _ _ _ Hl), list_lookup_fmap.
  by destruct (xs !! x).
Qed.

Lemma length_rows (h : heap) (weight : val) (G : matrix) :
  holds_matrix h weight G → len weight h = (Ok (length G), h).
Proof.
  intros (l & rows & -> & Hl & Hrows).
  rewrite (len_ref _ _ _ Hl), length_fmap.
  by rewrite (Forall2_length _ _ _ Hrows).
Qed.

(** *** adjacency *)

Lemma adjacency_refines (h : heap) (weight : val) (G : matrix) (v : nat) :
  holds_matrix h weight G →
  refines (λ adj r h', ∃ l, r = VRef l ∧ h !! l = None ∧
                            h' = <[l:=indices adj]> h)
          (λ h', h ⊆ h')
          (value_adjacency G v) (Store.adjacency weight (VInt (Z.of_nat v))) h.
Proof.
  intros HG. unfold Store.adjacency, adjacency.
  pose proof (fresh_unused h) as Hfresh.
  set (l := fresh (dom h)) in *.
  eapply refines_step; [reflexivity|]. fold l.
  assert (Hsub : ∀ xs, h ⊆ <[l:=xs]> h) by (intros; by apply insert_subseteq).
  eapply refines_step;
    [apply length_rows; eapply holds_matrix_weaken; [exact HG | apply Hsub]|].
  eapply refines_then.
  - rewrite range_indices.
    apply (refines_for_each (λ (x : nat) (y : val), y = VInt (Z.of_nat x))
             (λ acc h', h' = <[l:=indices acc]> h) (λ h', h ⊆ h'));
      [apply Forall2_indices | done |].
    intros x y acc h' -> _ ->.
    assert (HG' : holds_matrix (<[l:=indices acc]> h) weight G)
      by (eapply holds_matrix_weaken; [exact HG | apply Hsub]).
    pose proof (getitem_row _ _ _ v HG') as Hrow.
    destruct (G !! v) as [row|] eqn:HGv.
    + destruct Hrow as (r & Hgetrow & Hr).
      rewrite (adjacency_step_row G v x acc row HGv).
      unfold refines. rewrite (run_bind_ok _ _ _ _ _ Hgetrow).
      pose proof (getitem_cell _ _ _ x Hr) as Hgetcell.
      destruct (row !! x) as [c|].
      * rewrite (run_bind_ok _ _ _ _ _ Hgetcell).
        destruct c as [w|]; simpl.
        -- rewrite (append_ref _ l (indices acc)) by by rewrite lookup_insert_eq.
           rewrite insert_insert_eq. unfold indices. by rewrite fmap_app.
        -- done.
      * rewrite (run_bind_raise _ _ _ _ _ Hgetcell). done.
    + rewrite (adjacency_step_no_row G v x acc HGv).
      unfold refines. by rewrite (run_bind_raise _ _ _ _ _ Hrow).
  - intros adj [] h' ->. simpl. exists l. done.
Qed.
(** *** The working arrays *)

Lemma setitem_int (h : heap) (l : positive) (xs : list Z) (x : nat) (a : Z) :
  h !! l = Some (ints xs) →
  Store.setitem (VRef l) (VInt (Z.of_nat x)) (VInt a) h
  = match value_setitem xs x a with
    | Ok xs' => (Ok (), <[l:=ints xs']> h)
    | Raise e => (Raise e, h)
    end.
Proof.
  intros Hl. unfold ints in Hl. rewrite (setitem_ref_Z _ _ _ _ _ Hl).
  rewrite length_fmap. unfold value_setitem, py_index.
  case_decide as Hx.
  - rewrite decide_True by lia. rewrite Nat2Z.id.
    unfold ints. by rewrite list_fmap_insert.
  - by rewrite !decide_False by lia.
Qed.

Section arrays.
Context (h0 : heap) (weight : val) (G : matrix) (lp ld : positive).
Hypothesis matrix_in_h0 : holds_matrix h0 weight G.
Hypothesis lp_new : h0 !! lp = None.
Hypothesis ld_new : h0 !! ld = None.
Hypothesis lp_ld : lp ≠ ld.

Lemma candidate_refines (st : arrays) (h : heap) (v x : nat) :
  arrays_at h0 lp ld st h →
  Store.candidate weight (VRef ld) (VInt (Z.of_nat v)) (VInt (Z.of_nat x)) h
  = (match value_candidate G st.2 v x with
     | Ok s => Ok (VInt s)
     | Raise e => Raise e
     end, h).
Proof.
  intros (Hsub & Hp & Hd). rewrite candidate_cases. unfold Store.candidate.
  assert (HG : holds_matrix h weight G) by by eapply holds_matrix_weaken.
  pose proof (getitem_int _ _ _ v Hd) as Hgetv.
  destruct (st.2 !! v) as [dv|];
    [rewrite (run_bind_ok _ _ _ _ _ Hgetv)
    |by rewrite (run_bind_raise _ _ _ _ _ Hgetv)].
  pose proof (getitem_row _ _ _ v HG) as Hrow.
  destruct (G !! v) as [row|];
    [destruct Hrow as (r & Hgetrow & Hr); rewrite (run_bind_ok _ _ _ _ _ Hgetrow)
    |by rewrite (run_bind_raise _ _ _ _ _ Hrow)].
  pose proof (getitem_cell _ _ _ x Hr) as Hgetcell.
  destruct (row !! x) as [c|];
    [rewrite (run_bind_ok _ _ _ _ _ Hgetcell)
    |by rewrite (run_bind_raise _ _ _ _ _ Hgetcell)].
  by destruct c.
Qed.

Lemma improvable_refines (st : arrays) (h : heap) (v x : nat) :
  arrays_at h0 lp ld st h →
  Store.improvable weight (VRef ld) (VInt (Z.of_nat v)) (VInt (Z.of_nat x)) h
  = (value_improvable G st.2 v x, h).
Proof.
  intros Hst. rewrite improvable_cases. unfold Store.improvable.
  pose proof (candidate_refines st h v x Hst) as Hcand.
  destruct Hst as (Hsub & Hp & Hd).
  pose proof (getitem_int _ _ _ x Hd) as Hgetx.
  destruct (st.2 !! x) as [dx|];
    [rewrite (run_bind_ok _ _ _ _ _ Hgetx)
    |by rewrite (run_bind_raise _ _ _ _ _ Hgetx)].
  destruct (value_candidate G st.2 v x) as [s|e].
  - by rewrite (run_bind_ok _ _ _ _ _ Hcand).
  - by rewrite (run_bind_raise _ _ _ _ _ Hcand).
Qed.

Lemma relax_refines (st : arrays) (h : heap) (v x : nat) :
  arrays_at h0 lp ld st h →
  refines (λ st' _ h', arrays_at h0 lp ld st' h') (λ h', h0 ⊆ h')
    (value_relax G v x st)
    (Store.relax weight (VRef lp) (VRef ld)
       (VInt (Z.of_nat v)) (VInt (Z.of_nat x))) h.
Proof.
  intros Hst. destruct st as [pred minDist]. rewrite relax_cases.
  unfold refines, Store.relax.
  pose proof (improvable_refines _ h v x Hst) as Himp.
  pose proof (candidate_refines _ h v x Hst) as Hcand.
  pose proof Hst as (Hsub & Hp & Hd). simpl in *.
  destruct (value_improvable G minDist v x) as [[|]|e];
    [rewrite (run_bind_ok _ _ _ _ _ Himp)
    |by rewrite (run_bind_ok _ _ _ _ _ Himp)
    |by rewrite (run_bind_raise _ _ _ _ _ Himp)].
  destruct (value_candidate G minDist v x) as [s|e];
    [rewrite (run_bind_ok _ _ _ _ _ Hcand)
    |by rewrite (run_bind_raise _ _ _ _ _ Hcand)].
  pose proof (setitem_int _ _ _ x s Hd) as Hsetd.
  destruct (value_setitem minDist x s) as [minDist'|e];
    [rewrite (run_bind_ok _ _ _ _ _ Hsetd)
    |by rewrite (run_bind_raise _ _ _ _ _ Hsetd)].
  assert (Hp' : <[ld:=ints minDist']> h !! lp = Some (ints pred))
    by by rewrite lookup_insert_ne.
  rewrite (setitem_int _ _ _ x (Z.of_nat v) Hp').
  destruct (value_setitem pred x (Z.of_nat v)) as [pred'|e].
  - split_and!; simpl.
    + apply insert_subseteq_r; [done|]. by apply insert_subseteq_r.
    + by rewrite lookup_insert_eq.
    + by rewrite lookup_insert_ne, lookup_insert_eq.
  - split; [done|]. by apply insert_subseteq_r.
Qed.

Lemma detect_refines (st : arrays) (h : heap) (v x : nat) :
  arrays_at h0 lp ld st h →
  refines (λ st' _ h', arrays_at h0 lp ld st' h') (λ h', h0 ⊆ h')
    (value_detect G v x st)
    (Store.detect weight (VRef ld) (VInt (Z.of_nat v)) (VInt (Z.of_nat x))) h.
Proof.
  intros Hst. rewrite detect_cases. unfold refines, Store.detect.
  pose proof (improvable_refines _ h v x Hst) as Himp.
  destruct (value_improvable G st.2 v x) as [[|]|e].
  - rewrite (run_bind_ok _ _ _ _ _ Himp). split; [done|]. by destruct Hst.
  - by rewrite (run_bind_ok _ _ _ _ _ Himp).
  - rewrite (run_bind_raise _ _ _ _ _ Himp). split; [done|]. by destruct Hst.
Qed.

(** The double loop over the edges, for a body that refines its
    value-level counterpart. *)
Lemma for_each_edge_refines (f : nat → nat → arrays → outcome arrays)
    (g : val → val → M ()) (st : arrays) (h : heap) :
  (∀ v x st h, arrays_at h0 lp ld st h →
     refines (λ st' _ h', arrays_at h0 lp ld st' h') (λ h', h0 ⊆ h')
       (f v x st) (g (VInt (Z.of_nat v)) (VInt (Z.of_nat x))) h) →
  arrays_at h0 lp ld st h →
  refines (λ st' _ h', arrays_at h0 lp ld st' h') (λ h', h0 ⊆ h')
    (value_for_each (seq 0 (length G))
       (λ v st, adj ← value_adjacency G v;
                value_for_each adj (λ x st, f v x st) st) st)
    (for_each_edge weight (length G) g) h.
Proof.
  intros Hbody Hst. unfold for_each_edge. rewrite range_indices.
  apply (refines_for_each (λ (x : nat) (y : val), y = VInt (Z.of_nat x))
           (λ st h', arrays_at h0 lp ld st h') (λ h', h0 ⊆ h'));
    [apply Forall2_indices | done |].
  clear st h Hst. intros v y st h -> _ Hst.
  pose proof Hst as (Hsub & Hp & Hd).
  assert (HG : holds_matrix h weight G) by by eapply holds_matrix_weaken.
  eapply refines_bind.
  - eapply refines_mono; [apply (adjacency_refines h weight G v HG) | |].
    + intros adj r h' H. exact H.
    + intros h' Hh'. simpl. by etrans.
  - intros adj r h' (l & -> & Hl & ->). simpl.
    eapply refines_step;
      [apply elements_of_ref; by rewrite lookup_insert_eq|].
    apply (refines_for_each (λ (x : nat) (y : val), y = VInt (Z.of_nat x))
             (λ st h', arrays_at h0 lp ld st h') (λ h', h0 ⊆ h'));
      [apply Forall2_indices | |].
    + split_and!.
      * etrans; [exact Hsub|]. by apply insert_subseteq.
      * rewrite lookup_insert_ne; [done|]. congruence.
      * rewrite lookup_insert_ne; [done|]. congruence.
    + intros x y st' h' -> _ Hst'. by apply Hbody.
Qed.
End arrays.
(** *** The whole call *)

Lemma run_refines_new (h : heap) (weight : val) (G : matrix) (source : Z) :
  holds_matrix h weight G →
  refines (λ st r h', h ⊆ h' ∧ holds_new_result h h' r st) (λ h', h ⊆ h')
    (value_run G source) (Store.singleSourceShortestPath weight (VInt source)) h.
Proof.
  intros HG. unfold Store.singleSourceShortestPath, value_run.
  eapply refines_step; [by apply length_rows|].
  pose proof (fresh_unused h) as Hlp. set (lp := fresh (dom h)) in *.
  eapply refines_step; [reflexivity|]. fold lp.
  set (h1 := <[lp:=replicate (length G) (VInt EVE)]> h).
  pose proof (fresh_unused h1) as Hld. set (ld := fresh (dom h1)) in *.
  eapply refines_step; [reflexivity|]. fold ld.
  set (h2 := <[ld:=replicate (length G) (VInt INFINITY)]> h1).
  assert (Hne : lp ≠ ld).
  { intros Heq. rewrite <- Heq in Hld. unfold h1 in Hld.
    by rewrite lookup_insert_eq in Hld. }
  assert (Hld0 : h !! ld = None).
  { unfold h1 in Hld. by rewrite lookup_insert_ne in Hld. }
  assert (Hsub1 : h ⊆ h1) by by apply insert_subseteq.
  assert (Hsub2 : h ⊆ h2) by (etrans; [exact Hsub1 | by apply insert_subseteq]).
  assert (Hset : Store.setitem (VRef ld) (VInt source) (VInt 0) h2
                 = match py_index (length G) source with
                   | Ok k => (Ok (), <[ld:=<[k:=VInt 0]>
                                (replicate (length G) (VInt INFINITY))]> h2)
                   | Raise e => (Raise e, h2)
                   end).
  { rewrite (setitem_ref_Z h2 ld (replicate (length G) (VInt INFINITY)))
      by apply lookup_insert_eq.
    by rewrite length_replicate. }
  rewrite initialise_cases.
  destruct (py_index (length G) source) as [k|e];
    [|unfold refines; by rewrite (run_bind_raise _ _ _ _ _ Hset)].
  eapply refines_step; [exact Hset|]. simpl.
  set (st0 := (replicate (length G) EVE,
               <[k:=0%Z]> (replicate (length G) INFINITY))).
  assert (Hst0 : arrays_at h lp ld st0
                   (<[ld:=<[k:=VInt 0]>
                      (replicate (length G) (VInt INFINITY))]> h2)).
  { split_and!; simpl.
    - by apply insert_subseteq_r.
    - unfold h2, h1, ints.
      rewrite !lookup_insert_ne, lookup_insert_eq by done.
      by rewrite fmap_replicate.
    - rewrite lookup_insert_eq. unfold ints.
      by rewrite list_fmap_insert, fmap_replicate. }
  eapply refines_bind.
  { apply (refines_for_each eq (λ st h', arrays_at h lp ld st h') (λ h', h ⊆ h'));
      [apply Forall_Forall2_diag, Forall_forall; done | exact Hst0 |].
    intros i ? st h' <- _ Hst. unfold relax_pass.
    apply (for_each_edge_refines h weight G lp ld HG Hlp Hld0
             (λ v x st, value_relax G v x st)
             (Store.relax weight (VRef lp) (VRef ld))); [|done].
    intros v x st' h'' Hst'. by apply relax_refines. }
  simpl. intros st1 [] h3 Hst1.
  eapply refines_bind.
  { unfold detect_pass.
    apply (for_each_edge_refines h weight G lp ld HG Hlp Hld0
             (λ v x st, value_detect G v x st)
             (Store.detect weight (VRef ld))); [|done].
    intros v x st' h'' Hst'. by apply detect_refines. }
  simpl. intros st2 [] h4 (Hsub4 & Hp4 & Hd4).
  unfold refines, new_list.
  pose proof (fresh_unused h4) as Hlr. set (lr := fresh (dom h4)) in *.
  assert (Hlr0 : h !! lr = None).
  { destruct (h !! lr) as [xs|] eqn:Hxs; [|done].
    by rewrite (lookup_weaken _ _ _ _ Hxs Hsub4) in Hlr. }
  split.
  - etrans; [exact Hsub4 | by apply insert_subseteq].
  - exists lr, lp, ld. split; [done|]. split.
    { assert (lr ≠ lp) by congruence. assert (lr ≠ ld) by congruence.
      apply NoDup_cons. split.
      - intros [?|[?|[]%elem_of_nil]%elem_of_cons]%elem_of_cons; done.
      - apply NoDup_cons. split; [|apply NoDup_singleton].
        intros ?%list_elem_of_singleton. done. }
    split_and!; try done.
    + by rewrite lookup_insert_eq.
    + rewrite lookup_insert_ne by congruence. done.
    + rewrite lookup_insert_ne by congruence. done.
Qed.

Lemma run_refines (h : heap) (weight : val) (G : matrix) (source : Z) :
  holds_matrix h weight G →
  refines (λ st r h', h ⊆ h' ∧ holds_result h' r st) (λ h', h ⊆ h')
    (value_run G source) (Store.singleSourceShortestPath weight (VInt source)) h.
Proof.
  intros HG. eapply refines_mono; [by apply run_refines_new | | done].
  intros st r h' [Hsub (lr & lp & ld & -> & _ & _ & _ & _ & Hr & Hp & Hd)].
  split; [done|]. by exists lr, lp, ld.
Qed.
End store.

(** * The claims, on the store-level model *)

Lemma sorted_seq (j n : nat) : StronglySorted lt (seq j n).
Proof.
  revert j. induction n as [|n IH]; intros j; simpl; constructor.
  - apply IH.
  - apply Forall_forall. intros x Hx%elem_of_seq. lia.
Qed.

Lemma sorted_filter {A : Type} (R : A → A → Prop) (P : A → Prop)
    `{∀ x, Decision (P x)} (l : list A) :
  StronglySorted R l → StronglySorted R (filter P l).
Proof.
  induction 1 as [|x l Hl IH Hx]; [constructor|].
  rewrite filter_cons. case_decide; [|done].
  constructor; [done|].
  apply Forall_forall. intros y [_ Hy]%list_elem_of_filter.
  rewrite Forall_forall in Hx. by apply Hx.
Qed.

Lemma holds_result_weaken (h h' : Store.heap) (r : Store.val) (st : arrays) :
  Store.holds_result h r st → h ⊆ h' → Store.holds_result h' r st.
Proof.
  intros (lr & lp & ld & -> & Hr & Hp & Hd) Hsub. exists lr, lp, ld.
  split_and!; [done | by eapply lookup_weaken..].
Qed.

Lemma holds_matrix_positive :
  Store.holds_matrix Store.heap_positive (Store.VRef 1) weight_positive.
Proof.
  exists 1%positive, [2; 3; 4; 5; 6]%positive.
  split; [reflexivity|]. split; [reflexivity|].
  repeat constructor.
Defined.

(** C6: in a heap that holds a square matrix G, adjacency(G, v) for a vertex
    v returns a new list whose elements are exactly the indices x below
    len(G) with G[v][x] not None, each once and in strictly ascending order;
    the list is determined by G and v alone, and every object that was in
    the heap is left as it was. *)
Theorem adjacency_neighbours (h : Store.heap) (weight : Store.val) (G : matrix)
    (v : nat) :
  Store.holds_matrix h weight G → square G → v < length G →
  ∃ l adj,
    Store.adjacency weight (Store.VInt (Z.of_nat v)) h
      = (Ok (Store.VRef l), <[l:=Store.indices adj]> h) ∧
    h !! l = None ∧
    adj = filter (λ x, has_edge G v x = true) (seq 0 (length G)) ∧
    (∀ x, x ∈ adj ↔ ∃ w, edge G v x w) ∧
    StronglySorted lt adj ∧ NoDup adj.
Proof.
  intros HG Hsq Hv.
  pose proof (adjacency_refines h weight G v HG) as H.
  rewrite (adjacency_square G v Hsq Hv) in H. unfold Store.refines in H.
  destruct (Store.adjacency weight (Store.VInt (Z.of_nat v)) h)
    as [[r|e] h'] eqn:Hrun; [|done].
  destruct H as (l & -> & Hl & ->).
  exists l, (filter (λ x, has_edge G v x = true) (seq 0 (length G))).
  split_and!; try done.
  - intros x. apply elem_of_neighbours.
  - apply sorted_filter, sorted_seq.
  - apply NoDup_filter, NoDup_seq.
Qed.

Lemma adjacency_neighbours_witness :
  ∃ l adj,
    Store.adjacency (Store.VRef 1) (Store.VInt (Z.of_nat 4)) Store.heap_positive
      = (Ok (Store.VRef l), <[l:=Store.indices adj]> Store.heap_positive) ∧
    Store.heap_positive !! l = None ∧
    adj = filter (λ x, has_edge weight_positive 4 x = true)
            (seq 0 (length weight_positive)) ∧
    (∀ x, x ∈ adj ↔ ∃ w, edge weight_positive 4 x w) ∧
    StronglySorted lt adj ∧ NoDup adj.
Proof.
  apply (adjacency_neighbours Store.heap_positive (Store.VRef 1) weight_positive 4).
  - exact holds_matrix_positive.
  - by apply square_compute.
  - simpl. lia.
Defined.

(** C8: in a heap that holds the matrix, a second call with the same matrix
    and source, made in the heap the first call left, raises the same
    exception as the first, or both return and the two returned lists hold
    equal predecessor and distance arrays. *)
Theorem two_calls_agree (h : Store.heap) (weight : Store.val) (G : matrix)
    (source : Z) :
  Store.holds_matrix h weight G →
  let first := Store.singleSourceShortestPath weight (Store.VInt source) h in
  let second :=
    Store.singleSourceShortestPath weight (Store.VInt source) first.2 in
  match first.1, second.1 with
  | Ok r1, Ok r2 =>
      ∃ st, Store.holds_result second.2 r1 st ∧ Store.holds_result second.2 r2 st
  | Raise e1, Raise e2 => e1 = e2
  | _, _ => False
  end.
Proof.
  intros HG. simpl.
  pose proof (run_refines h weight G source HG) as H1.
  unfold Store.refines in H1.
  destruct (Store.singleSourceShortestPath weight (Store.VInt source) h)
    as [r1 h1] eqn:Hrun1. simpl.
  assert (Hsub : h ⊆ h1).
  { destruct (singleSourceShortestPath G source), r1; try done; by destruct H1. }
  pose proof (run_refines h1 weight G source
                (holds_matrix_weaken _ _ _ _ HG Hsub)) as H2.
  unfold Store.refines in H2.
  destruct (Store.singleSourceShortestPath weight (Store.VInt source) h1)
    as [r2 h2] eqn:Hrun2. simpl.
  destruct (singleSourceShortestPath G source) as [st|e], r1, r2; try done.
  - destruct H1 as [_ Hr1], H2 as [Hsub2 Hr2].
    exists st. split; [by eapply holds_result_weaken | done].
  - destruct H1 as [<- _], H2 as [<- _]. done.
Qed.

Lemma two_calls_agree_witness :
  let first :=
    Store.singleSourceShortestPath (Store.VRef 1) (Store.VInt 0)
      Store.heap_positive in
  let second :=
    Store.singleSourceShortestPath (Store.VRef 1) (Store.VInt 0) first.2 in
  match first.1, second.1 with
  | Ok r1, Ok r2 =>
      ∃ st, Store.holds_result second.2 r1 st ∧ Store.holds_result second.2 r2 st
  | Raise e1, Raise e2 => e1 = e2
  | _, _ => False
  end.
Proof.
  exact (two_calls_agree Store.heap_positive (Store.VRef 1) weight_positive 0
           holds_matrix_positive).
Defined.

(** C9: in a heap that holds the matrix, the call, whether it returns or
    raises, leaves every object that was in the heap as it was; in
    particular the heap still holds the same matrix, cell for cell. *)
Theorem matrix_unchanged (h : Store.heap) (weight : Store.val) (G : matrix)
    (source : Z) :
  Store.holds_matrix h weight G →
  let h' := (Store.singleSourceShortestPath weight (Store.VInt source) h).2 in
  (∀ l xs, h !! l = Some xs → h' !! l = Some xs) ∧
  Store.holds_matrix h' weight G.
Proof.
  intros HG. simpl.
  pose proof (run_refines h weight G source HG) as H.
  unfold Store.refines in H.
  destruct (Store.singleSourceShortestPath weight (Store.VInt source) h)
    as [r h'] eqn:Hrun. simpl.
  assert (Hsub : h ⊆ h').
  { destruct (singleSourceShortestPath G source), r; try done; by destruct H. }
  split; [|by eapply holds_matrix_weaken].
  intros l xs Hl. by eapply lookup_weaken.
Qed.

Lemma matrix_unchanged_witness :
  let h' := (Store.singleSourceShortestPath (Store.VRef 1) (Store.VInt 0)
               Store.heap_positive).2 in
  (∀ l xs, Store.heap_positive !! l = Some xs → h' !! l = Some xs) ∧
  Store.holds_matrix h' (Store.VRef 1) weight_positive.
Proof.
  exact (matrix_unchanged Store.heap_positive (Store.VRef 1) weight_positive 0
           holds_matrix_positive).
Defined.

(** * Further properties of the value-level model *)

(** ** The source subscript *)

(** X1: a source subscript outside [-V, V) makes line 75 raise IndexError
    before any relaxation; on the empty matrix every source does. *)
Theorem source_out_of_range (weight : matrix) (source : Z) :
  ¬ (- Z.of_nat (length weight) ≤ source < Z.of_nat (length weight))%Z →
  singleSourceShortestPath weight source = Raise IndexError.
Proof.
  intros Hout. unfold singleSourceShortestPath. rewrite initialise_cases.
  unfold py_index. by rewrite !decide_False by lia.
Qed.

Lemma source_out_of_range_witness :
  singleSourceShortestPath weight_positive 5 = Raise IndexError.
Proof.
  apply (source_out_of_range weight_positive 5). simpl. lia.
Defined.

(** X2: a negative source subscript in [-V, 0) counts from the end: the call
    behaves as with source + V. *)
Theorem negative_source_wraps (weight : matrix) (source : Z) :
  (- Z.of_nat (length weight) ≤ source < 0)%Z →
  singleSourceShortestPath weight source
  = singleSourceShortestPath weight (source + Z.of_nat (length weight)).
Proof.
  intros Hneg. unfold singleSourceShortestPath. rewrite !initialise_cases.
  unfold py_index.
  rewrite (decide_False (P := (0 ≤ source < _)%Z)) by lia.
  rewrite (decide_True (P := (- _ ≤ source < 0)%Z)) by lia.
  by rewrite (decide_True (P := (0 ≤ source + _ < _)%Z)) by lia.
Qed.

Lemma negative_source_wraps_witness :
  singleSourceShortestPath weight_positive (-1)
  = singleSourceShortestPath weight_positive (-1 + Z.of_nat (length weight_positive)).
Proof.
  apply (negative_source_wraps weight_positive (-1)). simpl. lia.
Defined.

(** ** Well-formed input *)

(** X3: on a square matrix with a valid source the call either returns two
    arrays of length V on which no edge is improvable, or raises the
    negative-cycle error; it raises neither IndexError nor TypeError. *)
Theorem square_outcomes (weight : matrix) (source : Z) :
  square weight → valid_source weight source →
  (∃ pred minDist,
     singleSourceShortestPath weight source = Ok (pred, minDist) ∧
     length pred = length weight ∧ length minDist = length weight ∧
     stable weight minDist) ∨
  singleSourceShortestPath weight source = Raise NegativeCycle.
Proof.
  intros Hsq Hsrc. pose proof (run_square weight source Hsq Hsrc) as H.
  destruct (singleSourceShortestPath weight source) as [[pred minDist]|e];
    simpl in H.
  - left. exists pred, minDist. destruct H as [[? ?] ?]. done.
  - right. by rewrite H.
Qed.

Lemma square_outcomes_witness :
  (∃ pred minDist,
     singleSourceShortestPath weight_negative_cycle 0 = Ok (pred, minDist) ∧
     length pred = length weight_negative_cycle ∧
     length minDist = length weight_negative_cycle ∧
     stable weight_negative_cycle minDist) ∨
  singleSourceShortestPath weight_negative_cycle 0 = Raise NegativeCycle.
Proof.
  apply (square_outcomes weight_negative_cycle 0).
  - by apply square_compute.
  - unfold valid_source. simpl. lia.
Defined.

(** ** What the returned arrays mean *)

(** X4: whenever the call returns, a vertex has predecessor entry EVE exactly
    when its distance is the one it started with (0 for the source, INFINITY
    for the others); no distance is above the one the vertex started with. *)
Theorem pred_marks_lowered (weight : matrix) (source : Z) (pred minDist : list Z) :
  singleSourceShortestPath weight source = Ok (pred, minDist) →
  ∃ k, py_index (length weight) source = Ok k ∧
    ∀ x p d, pred !! x = Some p → minDist !! x = Some d →
      (p = EVE ↔ d = initial_distance k x) ∧ (d ≤ initial_distance k x)%Z.
Proof.
  intros Hrun.
  destruct (returned_invariants _ _ _ Hrun) as (k & Hk & _ & _ & _ & _ & Hlow & _).
  exists k. split; [done|]. intros x p d Hp Hd.
  destruct (Hlow x p d Hp Hd) as [[-> ->]|[Hne Hlt]].
  - split; [done | lia].
  - split; [|lia]. split; [done | lia].
Qed.

Lemma pred_marks_lowered_witness :
  ∃ k, py_index (length weight_positive) 0 = Ok k ∧
    ∀ x p d, [EVE; 4; 1; 4; 0]%Z !! x = Some p → [0; 7; 9; 5; 3]%Z !! x = Some d →
      (p = EVE ↔ d = initial_distance k x) ∧ (d ≤ initial_distance k x)%Z.
Proof.
  apply (pred_marks_lowered weight_positive 0). reflexivity.
Defined.

(** X5: whenever the call returns, the distances satisfy the triangle
    inequality along every walk: for a walk from u to x of total weight W,
    distance[x] <= distance[u] + W. *)
Theorem no_walk_beats_distance (weight : matrix) (source : Z)
    (pred minDist : list Z) (u x : nat) (W du dx : Z) :
  singleSourceShortestPath weight source = Ok (pred, minDist) →
  walk weight u x W → minDist !! u = Some du → minDist !! x = Some dx →
  (dx ≤ du + W)%Z.
Proof.
  intros Hrun Hw Hdu Hdx.
  destruct (returned_invariants _ _ _ Hrun) as (k & _ & [_ Hlen] & _ & _ & _ & _ & Hst).
  by eapply stable_walk.
Qed.

Lemma no_walk_beats_distance_witness : (9 ≤ 0 + (0 + 10 + 2))%Z.
Proof.
  apply (no_walk_beats_distance weight_positive 0
           [EVE; 4; 1; 4; 0]%Z [0; 7; 9; 5; 3]%Z 0 2 (0 + 10 + 2) 0 9).
  - reflexivity.
  - apply (walk_snoc _ 0 1 2); [apply (walk_snoc _ 0 0 1)|].
    + constructor. simpl. lia.
    + by apply edge_compute.
    + by apply edge_compute.
  - reflexivity.
  - reflexivity.
Defined.

(** X6: whenever the call returns on a matrix without negative weights, the
    source's distance is 0 and every distance is the weight of a lightest
    walk from the source: no walk from the source to x weighs less than
    distance[x], and when distance[x] is below INFINITY some walk from the
    source to x weighs exactly distance[x]. *)
Theorem nonnegative_distances_exact (weight : matrix) (source : Z)
    (pred minDist : list Z) :
  nonnegative weight →
  singleSourceShortestPath weight source = Ok (pred, minDist) →
  ∃ k, py_index (length weight) source = Ok k ∧
    minDist !! k = Some 0%Z ∧
    ∀ x d, minDist !! x = Some d →
      (∀ W, walk weight k x W → (d ≤ W)%Z) ∧
      ((d < INFINITY)%Z → walk weight k x d).
Proof.
  intros Hnn Hrun.
  destruct (returned_invariants _ _ _ Hrun)
    as (k & Hk & [Hp Hd] & Hinf & _ & Hwalks & Hlow & Hst).
  simpl in *. exists k. split; [done|].
  assert (H0 : (0 ≤ INFINITY)%Z) by by vm_compute.
  pose proof (py_index_lt _ _ _ Hk) as Hlt.
  destruct (lookup_lt_is_Some_2 minDist k) as [dk Hdk]; [lia|].
  destruct (lookup_lt_is_Some_2 pred k) as [pk Hpk]; [lia|].
  assert (dk = 0%Z) as ->.
  { destruct (Hwalks k dk Hdk) as (u & W & Hw & ->).
    pose proof (nonnegative_walk _ _ _ _ Hnn Hw).
    destruct (Hlow k pk _ Hpk Hdk) as [[_ Heq]|[_ Hlow']];
      unfold initial_distance in *; rewrite (decide_True (P := k = k)) in * by done;
      case_decide; lia. }
  split; [done|]. intros x d Hdx. split.
  - intros W Hw. pose proof (stable_walk _ _ _ _ _ _ _ Hst Hd Hw Hdk Hdx). lia.
  - intros Hfin. destruct (Hwalks x d Hdx) as (u & W & Hw & ->).
    pose proof (nonnegative_walk _ _ _ _ Hnn Hw).
    unfold initial_distance in *. case_decide; [subst u|lia].
    by replace (0 + W)%Z with W by lia.
Qed.

Lemma nonnegative_distances_exact_witness :
  ∃ k, py_index (length weight_positive) 0 = Ok k ∧
    [0; 7; 9; 5; 3]%Z !! k = Some 0%Z ∧
    ∀ x d, [0; 7; 9; 5; 3]%Z !! x = Some d →
      (∀ W, walk weight_positive k x W → (d ≤ W)%Z) ∧
      ((d < INFINITY)%Z → walk weight_positive k x d).
Proof.
  apply (nonnegative_distances_exact weight_positive 0 [EVE; 4; 1; 4; 0]%Z).
  - exact nonnegative_positive.
  - reflexivity.
Defined.

(** X7: whenever the call returns on a matrix whose weights are all strictly
    positive, following the predecessor entries from any vertex whose
    distance is below INFINITY leads to the source. *)
Theorem pred_chain_reaches_source (weight : matrix) (source : Z)
    (pred minDist : list Z) :
  positive_weights weight →
  singleSourceShortestPath weight source = Ok (pred, minDist) →
  ∃ k, py_index (length weight) source = Ok k ∧
    ∀ x d, minDist !! x = Some d → (d < INFINITY)%Z → pred_chain pred x k.
Proof.
  intros Hpos Hrun.
  assert (Hnn : nonnegative weight).
  { intros v x w He. specialize (Hpos v x w He). lia. }
  destruct (returned_invariants _ _ _ Hrun)
    as (k & Hk & [Hp Hd] & Hinf & Hedges & Hwalks & Hlow & Hst).
  simpl in *. exists k. split; [done|].
  assert (H0 : (0 ≤ INFINITY)%Z) by by vm_compute.
  assert (Hge : ∀ x d, minDist !! x = Some d → (0 ≤ d)%Z).
  { intros x d Hx. destruct (Hwalks x d Hx) as (u & W & Hw & ->).
    pose proof (nonnegative_walk _ _ _ _ Hnn Hw).
    unfold initial_distance. case_decide; lia. }
  intros x d Hx Hfin.
  remember (Z.to_nat d) as n eqn:Hn.
  revert x d Hx Hfin Hn. induction n as [n IH] using lt_wf_ind.
  intros x d Hx Hfin ->.
  destruct (lookup_lt_is_Some_2 pred x) as [p Hpx];
    [apply lookup_lt_Some in Hx; lia|].
  destruct (Hlow x p d Hpx Hx) as [[-> Heq]|[Hne _]].
  - unfold initial_distance in Heq. case_decide; [subst; constructor | lia].
  - destruct (Hedges x p Hpx Hne) as (w & dp & dx & Hp0 & He & Hdp & Hdx & Hle).
    simpl in *. simplify_eq. specialize (Hpos _ _ _ He).
    pose proof (Hge _ _ Hdp).
    eapply pred_chain_step; [done..|].
    eapply (IH (Z.to_nat dp)); [lia | exact Hdp | lia | done].
Qed.

Lemma positive_weights_positive : positive_weights weight_positive.
Proof.
  intros v x w (Hx & row & Hrow & Hc).
  destruct v as [|[|[|[|[|v]]]]]; simpl in Hrow; simplify_eq;
    destruct x as [|[|[|[|[|x]]]]]; simpl in Hc; simplify_eq; lia.
Defined.

Lemma pred_chain_reaches_source_witness :
  ∃ k, py_index (length weight_positive) 0 = Ok k ∧
    ∀ x d, [0; 7; 9; 5; 3]%Z !! x = Some d → (d < INFINITY)%Z →
      pred_chain [EVE; 4; 1; 4; 0]%Z x k.
Proof.
  apply (pred_chain_reaches_source weight_positive 0 _ [0; 7; 9; 5; 3]%Z).
  - exact positive_weights_positive.
  - reflexivity.
Defined.

(** ** Passes *)

(** X8: a relaxation pass that returns never raises a distance: every entry
    of the distance array after the pass is at most the entry before it, and
    both arrays keep their length. *)
Theorem relax_pass_lowers (weight : matrix) (st st' : arrays) :
  lengths_ok weight st → relax_pass weight st = Ok st' →
  lengths_ok weight st' ∧
  ∀ x d d', st.2 !! x = Some d → st'.2 !! x = Some d' → (d' ≤ d)%Z.
Proof.
  intros Hlen Hpass.
  set (I := λ s : arrays, lengths_ok weight s ∧
          ∀ x d d', st.2 !! x = Some d → s.2 !! x = Some d' → (d' ≤ d)%Z).
  assert (Hclosed : relax_closed weight I).
  { apply relax_closed_and; [apply relax_closed_lengths|].
    intros v x w pred minDist dv dx He _ Hle Hv Hx Hlt y d d' Hy. simpl in *.
    destruct (decide (y = x)) as [->|Hne].
    - rewrite list_lookup_insert_eq by by eapply lookup_lt_Some.
      intros [= <-]. specialize (Hle x d dx Hy Hx). lia.
    - rewrite list_lookup_insert_ne by done. by apply Hle. }
  assert (Hinit : I st).
  { split; [done|]. intros x d d' Hd Hd'. simplify_eq. lia. }
  pose proof (relax_pass_post weight I (λ _, True) ltac:(done)
                ltac:(by intros ? [? _]) Hclosed st Hinit) as H.
  rewrite Hpass in H. exact H.
Qed.

Lemma relax_pass_lowers_witness :
  lengths_ok weight_positive
    ([EVE; 4; 4; 4; 0]%Z, [0%Z; 7%Z; 11%Z; 5%Z; 3%Z]) ∧
  ∀ x d d', [0%Z; INFINITY; INFINITY; INFINITY; INFINITY] !! x = Some d →
    [0%Z; 7%Z; 11%Z; 5%Z; 3%Z] !! x = Some d' → (d' ≤ d)%Z.
Proof.
  apply (relax_pass_lowers weight_positive
           ([EVE; EVE; EVE; EVE; EVE],
            [0%Z; INFINITY; INFINITY; INFINITY; INFINITY])
           ([EVE; 4; 4; 4; 0]%Z, [0%Z; 7%Z; 11%Z; 5%Z; 3%Z])).
  - split; reflexivity.
  - reflexivity.
Defined.

Lemma for_each_fixed {X S : Type} (xs : list X) (body : X → S → outcome S) (s : S) :
  (∀ x, x ∈ xs → body x s = Ok s) → for_each xs body s = Ok s.
Proof.
  induction xs as [|x xs IH]; intros H; simpl; [done|].
  rewrite (H x) by left. simpl. apply IH. intros y Hy. apply H. by right.
Qed.

Lemma relax_pass_stable (weight : matrix) (st : arrays) :
  square weight → lengths_ok weight st → stable weight st.2 →
  relax_pass weight st = Ok st.
Proof.
  destruct st as [pred minDist]. simpl.
  intros Hsq [Hp Hd] Hst. simpl in Hp, Hd. unfold relax_pass. apply for_each_fixed.
  intros v Hv%elem_of_seq. rewrite adjacency_square by (done || lia).
  cbn [mbind outcome_bind].
  apply for_each_fixed. intros x [w Hw]%elem_of_neighbours.
  destruct (edge_lt _ _ _ _ Hw) as [_ Hx].
  destruct (lookup_lt_is_Some_2 minDist v) as [dv Hdv]; [lia|].
  destruct (lookup_lt_is_Some_2 minDist x) as [dx Hdx]; [lia|].
  rewrite (relax_edge _ _ _ _ _ _ _ _ Hw Hdv Hdx) by lia.
  pose proof (Hst _ _ _ _ _ Hw Hdv Hdx).
  by rewrite bool_decide_eq_false_2 by lia.
Qed.

Lemma detect_pass_stable (weight : matrix) (st : arrays) :
  square weight → lengths_ok weight st → stable weight st.2 →
  detect_pass weight st = Ok st.
Proof.
  intros Hsq [Hp Hd] Hst. unfold detect_pass. apply for_each_fixed.
  intros v Hv%elem_of_seq. rewrite adjacency_square by (done || lia). simpl.
  apply for_each_fixed. intros x [w Hw]%elem_of_neighbours.
  destruct (edge_lt _ _ _ _ Hw) as [_ Hx].
  destruct (lookup_lt_is_Some_2 st.2 v) as [dv Hdv]; [lia|].
  destruct (lookup_lt_is_Some_2 st.2 x) as [dx Hdx]; [lia|].
  rewrite (detect_edge _ _ _ _ _ _ _ Hw Hdv Hdx).
  pose proof (Hst _ _ _ _ _ Hw Hdv Hdx).
  by rewrite bool_decide_eq_false_2 by lia.
Qed.

(** X9: on a square matrix, a relaxation pass over arrays on which no edge is
    improvable returns them unchanged. *)
Theorem stable_pass_unchanged (weight : matrix) (pred minDist : list Z) :
  square weight →
  length pred = length weight → length minDist = length weight →
  stable weight minDist →
  relax_pass weight (pred, minDist) = Ok (pred, minDist).
Proof. intros Hsq Hp Hd Hst. by apply relax_pass_stable. Qed.

Lemma stable_pass_unchanged_witness :
  relax_pass weight_positive ([EVE; 4; 1; 4; 0]%Z, [0; 7; 9; 5; 3]%Z)
  = Ok ([EVE; 4; 1; 4; 0]%Z, [0; 7; 9; 5; 3]%Z).
Proof.
  apply (stable_pass_unchanged weight_positive).
  - by apply square_compute.
  - reflexivity.
  - reflexivity.
  - exact (proj2 (detect_pass_post weight_positive (λ _, True)
                    (λ _, Logic.I) Logic.I
                    ([EVE; 4; 1; 4; 0]%Z, [0; 7; 9; 5; 3]%Z)
                    (conj eq_refl eq_refl))).
Defined.

(** X10: on a square matrix and arrays of length V, the detection pass
    returns the arrays as they are when no edge is improvable, and raises
    the negative-cycle error otherwise. *)
Theorem detect_pass_outcome (weight : matrix) (st : arrays) :
  square weight → lengths_ok weight st →
  (stable weight st.2 → detect_pass weight st = Ok st) ∧
  (¬ stable weight st.2 → detect_pass weight st = Raise NegativeCycle).
Proof.
  intros Hsq Hlen. split; [by apply detect_pass_stable|].
  intros Hns.
  pose proof (detect_pass_post weight (λ e, e = NegativeCycle)
                ltac:(done) eq_refl st Hlen) as H.
  destruct (detect_pass weight st) as [st'|e]; simpl in H.
  - by destruct H as [_ ?].
  - by rewrite H.
Qed.

Lemma detect_pass_outcome_witness :
  (stable weight_one_edge [0%Z; INFINITY] →
   detect_pass weight_one_edge ([EVE; EVE], [0%Z; INFINITY])
   = Ok ([EVE; EVE], [0%Z; INFINITY])) ∧
  (¬ stable weight_one_edge [0%Z; INFINITY] →
   detect_pass weight_one_edge ([EVE; EVE], [0%Z; INFINITY])
   = Raise NegativeCycle).
Proof.
  apply (detect_pass_outcome weight_one_edge ([EVE; EVE], [0%Z; INFINITY])).
  - by apply square_compute.
  - split; reflexivity.
Defined.

(** X11: on a square matrix with a valid source, if no edge is improvable on
    the initial arrays (as when the matrix has no edge at all), the call
    returns the initial arrays: every predecessor EVE, distance 0 at the
    source and INFINITY elsewhere. *)
Theorem initial_stable_returned (weight : matrix) (source : Z) :
  square weight → valid_source weight source →
  stable weight (<[Z.to_nat source:=0%Z]> (replicate (length weight) INFINITY)) →
  singleSourceShortestPath weight source
  = Ok (replicate (length weight) EVE,
        <[Z.to_nat source:=0%Z]> (replicate (length weight) INFINITY)).
Proof.
  intros Hsq Hsrc Hst. unfold singleSourceShortestPath.
  rewrite initialise_cases, py_index_valid by done. simpl.
  set (st0 := (replicate (length weight) EVE,
               <[Z.to_nat source:=0%Z]> (replicate (length weight) INFINITY))).
  assert (Hlen : lengths_ok weight st0)
    by (split; simpl; by rewrite ?length_insert, length_replicate).
  rewrite for_each_fixed by (intros; by apply relax_pass_stable). simpl.
  by rewrite detect_pass_stable.
Qed.

Lemma no_edges_stable (G : matrix) (minDist : list Z) :
  (∀ v x w, ¬ edge G v x w) → stable G minDist.
Proof. intros Hno v x w dv dx He. by destruct (Hno v x w). Qed.

Lemma initial_stable_returned_witness :
  singleSourceShortestPath weight_no_edges 1
  = Ok (replicate (length weight_no_edges) EVE,
        <[Z.to_nat 1:=0%Z]> (replicate (length weight_no_edges) INFINITY)).
Proof.
  apply (initial_stable_returned weight_no_edges 1).
  - by apply square_compute.
  - unfold valid_source. simpl. lia.
  - apply no_edges_stable. intros v x w (_ & row & Hrow & Hc).
    destruct v as [|[|v]]; simpl in Hrow; simplify_eq;
      by destruct x as [|[|x]].
Defined.

(** ** Matrices that are not square *)

Lemma adjacency_loop_row (G : matrix) (v : nat) (row : list (option Z))
    (xs acc : list nat) :
  G !! v = Some row →
  for_each xs (adjacency_step G v) acc
  = if decide (Forall (λ x, x < length row) xs)
    then Ok (acc ++ filter (λ x, has_edge G v x = true) xs)
    else Raise IndexError.
Proof.
  intros Hrow. revert acc. induction xs as [|x xs IH]; intros acc; cbn [for_each].
  - rewrite decide_True by constructor. by rewrite filter_nil, app_nil_r.
  - rewrite (adjacency_step_row G v x acc row Hrow).
    destruct (row !! x) as [c|] eqn:Hc.
    + pose proof (lookup_lt_Some _ _ _ Hc) as Hx.
      assert (He : has_edge G v x = if c is Some _ then true else false)
        by (unfold has_edge; by rewrite Hrow, Hc).
      rewrite filter_cons, He.
      destruct c; simpl; rewrite IH;
        (destruct (decide (Forall (λ x, x < length row) xs)) as [Hxs|Hxs];
         [rewrite decide_True by by constructor
         |rewrite decide_False by by intros [_ ?]%Forall_cons]); try done.
      by rewrite <- app_assoc.
    + apply lookup_ge_None in Hc. simpl.
      rewrite decide_False; [done|]. intros [? _]%Forall_cons. lia.
Qed.

Lemma adjacency_cases (G : matrix) (v : nat) :
  adjacency G v
  = match G !! v with
    | Some row =>
        if decide (length G ≤ length row)
        then Ok (filter (λ x, has_edge G v x = true) (seq 0 (length G)))
        else Raise IndexError
    | None => if decide (length G = 0) then Ok [] else Raise IndexError
    end.
Proof.
  unfold adjacency. destruct (G !! v) as [row|] eqn:Hrow.
  - rewrite (adjacency_loop_row G v row _ _ Hrow). simpl.
    destruct (decide (length G ≤ length row)) as [Hle|Hgt].
    + rewrite decide_True; [done|].
      apply Forall_forall. intros x Hx%elem_of_seq. lia.
    + rewrite decide_False; [done|]. intros Hall.
      rewrite Forall_forall in Hall.
      specialize (Hall (length row)). rewrite elem_of_seq in Hall. lia.
  - destruct (length G) as [|n] eqn:Hn; [done|].
    simpl. by rewrite (adjacency_step_no_row G v 0 [] Hrow).
Qed.

(** X12: adjacency(G, v) on any matrix: when row v exists and has at least
    len(G) cells, it returns the indices x below len(G) with G[v][x] not
    None, in ascending order (cells beyond column len(G) - 1 are not looked
    at); when row v is shorter it raises IndexError; when there is no row v
    it raises IndexError, except on the empty matrix, where it returns the
    empty list. *)
Theorem adjacency_outcome (G : matrix) (v : nat) :
  adjacency G v
  = match G !! v with
    | Some row =>
        if decide (length G ≤ length row)
        then Ok (filter (λ x, has_edge G v x = true) (seq 0 (length G)))
        else Raise IndexError
    | None => if decide (length G = 0) then Ok [] else Raise IndexError
    end.
Proof. exact (adjacency_cases G v). Qed.

Lemma for_each_ok_each {X S : Type} (xs : list X) (body : X → S → outcome S)
    (s s' : S) (x : X) :
  for_each xs body s = Ok s' → x ∈ xs → ∃ s1 s2, body x s1 = Ok s2.
Proof.
  revert s. induction xs as [|y xs IH]; intros s Hrun Hx; [by apply elem_of_nil in Hx|].
  simpl in Hrun. destruct (body y s) as [s1|e] eqn:Hy; [|done]. simpl in Hrun.
  apply elem_of_cons in Hx as [->|Hx]; [eauto|]. by eapply IH.
Qed.

(** X13: the call never returns on a matrix that has a row with fewer than
    len(weight) cells: it raises. *)
Theorem short_row_raises (weight : matrix) (source : Z) (v : nat)
    (row : list (option Z)) :
  weight !! v = Some row → length row < length weight →
  ∃ e, singleSourceShortestPath weight source = Raise e.
Proof.
  intros Hrow Hshort.
  destruct (singleSourceShortestPath weight source) as [st|e] eqn:Hrun; [|eauto].
  exfalso. unfold singleSourceShortestPath in Hrun.
  destruct (initialise weight source) as [st0|] eqn:Hinit; [|done]. simpl in Hrun.
  destruct (for_each (passes (length weight)) _ st0) as [st1|]; [|done].
  simpl in Hrun.
  destruct (detect_pass weight st1) as [st2|] eqn:Hdetect; [|done].
  unfold detect_pass in Hdetect.
  destruct (for_each_ok_each _ _ _ _ v Hdetect) as (s1 & s2 & Hbody).
  { apply elem_of_seq. apply lookup_lt_Some in Hrow. lia. }
  rewrite adjacency_cases, Hrow, decide_False in Hbody by lia. done.
Qed.

Lemma short_row_raises_witness :
  ∃ e, singleSourceShortestPath weight_short_row 0 = Raise e.
Proof.
  apply (short_row_raises weight_short_row 0 2 [None; None]).
  - reflexivity.
  - simpl. lia.
Defined.

Lemma for_each_ext {X S : Type} (xs : list X) (f g : X → S → outcome S) (s : S) :
  (∀ x s, x ∈ xs → f x s = g x s) → for_each xs f s = for_each xs g s.
Proof.
  revert s. induction xs as [|x xs IH]; intros s H; simpl; [done|].
  rewrite (H x s) by left. destruct (g x s) as [s'|]; [|done]. simpl.
  apply IH. intros y s1 Hy. apply H. by right.
Qed.

Lemma filter_ext_in {A : Type} (P Q : A → Prop) `{∀ x, Decision (P x)}
    `{∀ x, Decision (Q x)} (l : list A) :
  (∀ x, x ∈ l → P x ↔ Q x) → filter P l = filter Q l.
Proof.
  induction l as [|x l IH]; intros Hext; [done|].
  rewrite !filter_cons. rewrite IH by (intros y Hy; apply Hext; by right).
  destruct (decide (P x)) as [HP|HP], (decide (Q x)) as [HQ|HQ]; try done;
    exfalso; apply (Hext x) in HP || apply (Hext x) in HQ; done || by left.
Qed.

Lemma length_truncate (G : matrix) : length (truncate G) = length G.
Proof. unfold truncate. by rewrite length_fmap. Qed.

Lemma lookup_truncate (G : matrix) (v : nat) :
  truncate G !! v = take (length G) <$> G !! v.
Proof. unfold truncate. by rewrite list_lookup_fmap. Qed.

Lemma has_edge_truncate (G : matrix) (v x : nat) :
  x < length G → has_edge (truncate G) v x = has_edge G v x.
Proof.
  intros Hx. unfold has_edge. rewrite lookup_truncate.
  destruct (G !! v) as [row|]; [|done]. simpl.
  by rewrite lookup_take_lt by done.
Qed.

Lemma adjacency_truncate (G : matrix) (v : nat) :
  adjacency (truncate G) v = adjacency G v.
Proof.
  rewrite !adjacency_cases, length_truncate, lookup_truncate.
  destruct (G !! v) as [row|]; [|done]. simpl.
  rewrite length_take.
  destruct (decide (length G ≤ length row)) as [Hle|Hgt].
  - rewrite decide_True by lia. f_equal. apply filter_ext_in.
    intros x Hx%elem_of_seq. by rewrite has_edge_truncate by lia.
  - by rewrite decide_False by lia.
Qed.

Lemma candidate_truncate (G : matrix) (minDist : list Z) (v x : nat) :
  x < length G → candidate (truncate G) minDist v x = candidate G minDist v x.
Proof.
  intros Hx. rewrite !candidate_cases, lookup_truncate.
  destruct (minDist !! v); [|done].
  destruct (G !! v) as [row|]; [|done]. simpl.
  by rewrite lookup_take_lt by done.
Qed.

Lemma adjacency_elem_lt (G : matrix) (v x : nat) (adj : list nat) :
  adjacency G v = Ok adj → x ∈ adj → x < length G.
Proof.
  rewrite adjacency_cases. destruct (G !! v) as [row|].
  - case_decide; [|done]. intros [= <-] [_ Hx%elem_of_seq]%list_elem_of_filter. lia.
  - case_decide; [|done]. intros [= <-] Hx. by apply elem_of_nil in Hx.
Qed.

Lemma edge_loop_truncate (G : matrix) (f g : nat → nat → arrays → outcome arrays)
    (st : arrays) :
  (∀ v x st, x < length G → f v x st = g v x st) →
  for_each (seq 0 (length (truncate G)))
    (λ v st, adj ← adjacency (truncate G) v; for_each adj (λ x st, f v x st) st) st
  = for_each (seq 0 (length G))
      (λ v st, adj ← adjacency G v; for_each adj (λ x st, g v x st) st) st.
Proof.
  intros Hfg. rewrite length_truncate. apply for_each_ext.
  intros v s _. rewrite adjacency_truncate.
  destruct (adjacency G v) as [adj|] eqn:Hadj; [|done]. simpl.
  apply for_each_ext. intros x s' Hx. apply Hfg. by eapply adjacency_elem_lt.
Qed.

(** X14: cells beyond column len(weight) - 1 are never read: the call on a
    matrix gives what it gives on the matrix with every row cut to
    len(weight) cells. *)
Theorem wide_rows_ignored (weight : matrix) (source : Z) :
  singleSourceShortestPath weight source
  = singleSourceShortestPath (truncate weight) source.
Proof.
  unfold singleSourceShortestPath.
  rewrite !initialise_cases, length_truncate.
  destruct (py_index (length weight) source) as [k|]; [|done]. simpl.
  assert (Hpass : ∀ st, relax_pass (truncate weight) st = relax_pass weight st).
  { intros st. unfold relax_pass. apply edge_loop_truncate.
    intros v x [pred minDist] Hx. rewrite !relax_cases, !improvable_cases.
    by rewrite !candidate_truncate by done. }
  assert (Hdetect : ∀ st, detect_pass (truncate weight) st = detect_pass weight st).
  { intros st. unfold detect_pass. apply edge_loop_truncate.
    intros v x st' Hx. rewrite !detect_cases, !improvable_cases.
    by rewrite !candidate_truncate by done. }
  rewrite (for_each_ext _ (λ _ st, relax_pass (truncate weight) st)
             (λ _ st, relax_pass weight st)) by (intros; apply Hpass).
  destruct (for_each (passes (length weight)) _ _) as [st1|]; [|done]. simpl.
  by rewrite Hdetect.
Qed.

(** X16: whenever the call returns, every distance is the start value of
    some vertex u (0 when u is the source, INFINITY otherwise) plus the total
    weight of a walk from u to the vertex of that distance. *)
Theorem distances_from_walks (weight : matrix) (source : Z) (pred minDist : list Z) :
  singleSourceShortestPath weight source = Ok (pred, minDist) →
  ∃ k, py_index (length weight) source = Ok k ∧
    ∀ x d, minDist !! x = Some d →
      ∃ u W, walk weight u x W ∧ d = (initial_distance k u + W)%Z.
Proof.
  intros Hrun.
  destruct (returned_invariants _ _ _ Hrun) as (k & Hk & _ & _ & _ & Hwalks & _).
  exists k. split; [done|]. exact Hwalks.
Qed.

Lemma distances_from_walks_witness :
  ∃ k, py_index (length weight_far_edge) 0 = Ok k ∧
    ∀ x d, [0%Z; INFINITY; (INFINITY - 1)%Z] !! x = Some d →
      ∃ u W, walk weight_far_edge u x W ∧ d = (initial_distance k u + W)%Z.
Proof.
  apply (distances_from_walks weight_far_edge 0 [EVE; EVE; 1%Z]). reflexivity.
Defined.

(** * Further properties of the store-level model *)

(** X15: in a heap that holds the matrix, a call that returns gives a new
    two-element list whose elements are two further new lists, all three
    different objects that were not in the heap before the call; the two
    lists hold the predecessor and distance arrays of the value-level
    outcome, and every object that was in the heap is unchanged. *)
Theorem returned_lists_new (h h' : Store.heap) (weight r : Store.val)
    (G : matrix) (source : Z) :
  Store.holds_matrix h weight G →
  Store.singleSourceShortestPath weight (Store.VInt source) h = (Ok r, h') →
  ∃ st, singleSourceShortestPath G source = Ok st ∧
        Store.holds_new_result h h' r st ∧ h ⊆ h'.
Proof.
  intros HG Hrun. pose proof (run_refines_new h weight G source HG) as H.
  unfold Store.refines in H. rewrite Hrun in H.
  destruct (singleSourceShortestPath G source) as [st|e]; [|done].
  exists st. by destruct H.
Qed.

Lemma returned_lists_new_witness :
  ∃ st, singleSourceShortestPath weight_positive 0 = Ok st ∧
        Store.holds_new_result Store.heap_positive
          (Store.singleSourceShortestPath (Store.VRef 1) (Store.VInt 0)
             Store.heap_positive).2
          (Store.VRef 29) st ∧
        Store.heap_positive
        ⊆ (Store.singleSourceShortestPath (Store.VRef 1) (Store.VInt 0)
             Store.heap_positive).2.
Proof.
  apply (returned_lists_new Store.heap_positive _ (Store.VRef 1) (Store.VRef 29)
           weight_positive 0).
  - exact holds_matrix_positive.
  - vm_compute. reflexivity.
Defined.
